(** * CyberGuard dashboard: the orchestration core of [frontend/src/App.jsx]

    A shallow embedding of the React component's state and of the three
    pieces of code that change it: the background interval callback, the
    [analyzeUrl] handler with its two continuations (remote success and
    local fallback), and the controls that start a scan.  Rendering is
    left out.  The [stats] updater of the earlier variant of the component
    is embedded beside the current one, in [Legacy].

    Conventions.
    - JavaScript numbers that hold counts and timestamps are [Z]: the
      code only adds 1 to them, which is exact far beyond any session.
    - Every other number is a double, held as the rational it stands for:
      an arithmetic operation rounds its exact result to the nearest
      double ([JS.double]).  A draw of [Math.random()] is an input of the
      event that uses it.
    - [Date.now()] and [toLocaleTimeString()] are inputs as well ([Clock]).
    - The url the fallback evaluator examines is a sequence of UTF-16 code
      units, each a number; the text typed, logged and posted is written
      as [string], one character for one code unit ([JS.units]). *)

From Stdlib Require Import ZArith QArith Qround Qpower Lqa Lia.
From Stdlib Require Import String Ascii DecimalString.
From stdpp Require Import base list strings gmap.
Close Scope Q_scope.
Open Scope Z_scope.

(** ** The JavaScript built-ins the component calls *)

Module JS.

(** The code units of a text. *)
Fixpoint units (s : string) : list N :=
  match s with
  | EmptyString => []
  | String a rest => N_of_ascii a :: units rest
  end.

(** [s] begins with the code units of [pat]. *)
Fixpoint startsWith (pat s : list N) : bool :=
  match pat, s with
  | [], _ => true
  | _ :: _, [] => false
  | p :: pat', c :: s' => (p =? c)%N && startsWith pat' s'
  end.

(** [s.includes(pat)]: does [pat] occur in [s] as a contiguous run. *)
Fixpoint includes (s pat : list N) : bool :=
  if startsWith pat s then true
  else match s with
       | [] => false
       | _ :: rest => includes rest pat
       end.

(** The integer nearest to [x], the even one of the two on a tie. *)
Definition nearestEven (x : Q) : Z :=
  match (x - inject_Z (Qfloor x) ?= 1 # 2)%Q with
  | Lt => Qfloor x
  | Gt => Qfloor x + 1
  | Eq => if Z.even (Qfloor x) then Qfloor x else Qfloor x + 1
  end.

(** The [e] with [2^e <= x < 2^(e+1)], for [0 < x]. *)
Definition binade (x : Q) : Z :=
  let e := Z.log2 (Qnum x) - Z.log2 (Z.pos (Qden x)) in
  if Qle_bool (2 ^ e) x then e else e - 1.

(** The exponent of the spacing of the doubles around [x], for [0 < x]:
    53 significant bits, and no finer than the subnormal step [2^-1074]. *)
Definition spacing (x : Q) : Z := Z.max (binade x - 52) (-1074).

Definition roundPositive (x : Q) : Q :=
  Qred (inject_Z (nearestEven (x * 2 ^ (- spacing x))) * 2 ^ spacing x).

(** The double nearest to [x], the one with an even significand on a
    tie: what an arithmetic operation on Numbers returns when its exact
    result is [x], and what a decimal literal stands for.  Results at or
    beyond the overflow threshold [2^1024] do not occur here. *)
Definition double (x : Q) : Q :=
  match (x ?= 0)%Q with
  | Eq => 0%Q
  | Gt => roundPositive x
  | Lt => (- roundPositive (- x))%Q
  end.

(** [`${n}`] for an integer [n]. *)
Definition digits (n : Z) : string := NilZero.string_of_int (Z.to_int n).

(** [Math.floor]. *)
Definition floor (x : Q) : Z := Qfloor x.

(** The integer [n] for which [n / 10 - x] is closest to zero, the
    larger one on a tie: the first step of [x.toFixed(1)], [0 <= x]. *)
Definition tenths (x : Q) : Z := Qfloor (x * 10 + (1 # 2))%Q.

(** The decimal rendering of [n] tenths. *)
Definition render_tenths (n : Z) : string :=
  digits (n / 10) +:+ "." +:+ digits (n mod 10).

(** [x.toFixed(1)] for a double [x] below [10^21] in size; a negative [x]
    is rendered from [-x] behind a sign. *)
Definition toFixed1 (x : Q) : string :=
  if Qle_bool 0 x then render_tenths (tenths x)
  else "-" +:+ render_tenths (tenths (- x)%Q).

(** [arr.slice(0, n)]. *)
Definition slice0 {A} (n : nat) (arr : list A) : list A := take n arr.

(** [x.toFixed(2)] for a double [x] that is not negative and below
    [10^21]: the nearest number of hundredths, the larger on a tie,
    written with two decimals. *)
Definition hundredths (x : Q) : Z := Qfloor (x * 100 + (1 # 2))%Q.

Definition render_hundredths (n : Z) : string :=
  digits (n / 100) +:+ "." +:+ digits (n mod 100 / 10) +:+
  digits (n mod 10).

Definition toFixed2 (x : Q) : string := render_hundredths (hundredths x).

End JS.

(** ** Data *)

(** An element of [stats]: [{ name, value }]. *)
Record Entry := { name : string; value : Z }.

(** An element of [logs]: [{ id, time, msg, level }]. *)
Record LogEvent := { id : Z; time : string; msg : string; level : string }.

(** What [setResult] stores: [{ prediction, confidence, risk }]. *)
Record Result := { prediction : string; confidence : string; risk : string }.

(** The body of a successful [/predict] response, as the handler reads it:
    [data.prediction], [data.confidence], [data.risk_level]. *)
Record Payload :=
  { data_prediction : string; data_confidence : Q; data_risk_level : string }.

(** How [await fetch(...)] followed by [await response.json()] can end. *)
Inductive Response :=
| FetchRejected            (* fetch rejects: no connection *)
| NotOk                    (* [!response.ok]: the handler throws 'Backend API Error' *)
| BodyUnusable             (* [response.json()] rejects, or yields null *)
| Answer (data : Payload). (* [response.ok] and a body was read *)

(** The two readings of the wall clock taken when a log entry is built. *)
Record Clock := { now : Z; localeTime : string }.

(** The value held by the [logs] state cell.  The interval callback tests
    it with [Array.isArray], so the model keeps the values that fail that
    test: an absent one ([undefined], [null]) and one that is neither an
    array nor iterable (a number, a boolean, a plain object). *)
Inductive LogsValue :=
| Absent
| NonSequence
| LogArray (entries : list LogEvent).

(** ** The fallback evaluator (the [catch] branch, after its delay) *)

Definition isPhish (url : list N) : bool :=
  JS.includes url (JS.units "bank") || (50 <? Z.of_nat (length url))
  || JS.includes url (JS.units "secure").

Definition mockRes (url : list N) (rnd : Q) : Result :=
  {| prediction := if isPhish url then "phishing" else "benign";
     confidence := JS.toFixed1 (JS.double (75 + JS.double (rnd * 20)));
     risk := if isPhish url then "CRITICAL" else "LOW" |}.

(** ** The [stats] cell and its two updaters *)

(** [{ ...item, value: item.value + 1 }] *)
Definition bump (item : Entry) : Entry :=
  {| name := name item; value := value item + 1 |}.

(** What a [map] callback hands back for an item: an object literal it
    has just built, or the item it was given. *)
Inductive Returned :=
| Fresh (obj : Entry)
| Same.

Definition returned (r : Returned) (item : Entry) : Entry :=
  match r with
  | Fresh obj => obj
  | Same => item
  end.

(** The callback of the interval updater: [(item, index) => ...]. *)
Definition tickCallback (isPhishing : bool) (index : nat) (item : Entry)
    : Returned :=
  if isPhishing && (index =? 1)%nat then Fresh (bump item)
  else if negb isPhishing && (index =? 0)%nat then Fresh (bump item)
  else Same.

(** The callback of the success-path updater: [item => ...]. *)
Definition scanCallback (pred : string) (item : Entry) : Returned :=
  if (pred =? "phishing")%string && (name item =? "Phishing")%string
  then Fresh (bump item)
  else if (pred =? "benign")%string && (name item =? "Benign")%string
  then Fresh (bump item)
  else Same.

(** [prev.map((item, index) => ...)], read as a list of values. *)
Definition tickStats (isPhishing : bool) (prev : list Entry) : list Entry :=
  imap (fun index item => returned (tickCallback isPhishing index item) item)
       prev.

(** [prev.map(item => ...)], read as a list of values. *)
Definition scanStats (pred : string) (prev : list Entry) : list Entry :=
  map (fun item => returned (scanCallback pred item) item) prev.

(** ** Objects and references

    [stats] is an array of references to objects.  The store holds the
    objects allocated so far, a reference is a position in it, and a
    reader that kept an array sees the objects its references lead to. *)

Definition Ref : Type := nat.

Definition Store : Type := list Entry.

Definition snapshot (h : Store) (arr : list Ref) : list (option Entry) :=
  (fun r => h !! r) <$> arr.

(** [prev.map(callback)] on the store: a new array; a [Fresh] object is
    allocated, a returned item keeps its reference.  [None]: a reference
    leads nowhere. *)
Fixpoint mapStore (callback : nat → Entry → Returned) (prev : list Ref)
    (h : Store) : option (list Ref * Store) :=
  match prev with
  | [] => Some ([], h)
  | r :: rest =>
      item ← h !! r;
      match callback 0%nat item with
      | Fresh obj =>
          '(arr, h') ← mapStore (callback ∘ S) rest (h ++ [obj]);
          Some (length h :: arr, h')
      | Same =>
          '(arr, h') ← mapStore (callback ∘ S) rest h;
          Some (r :: arr, h')
      end
  end.

(** The earlier variant of the component kept beside this one updates
    [stats] after a scan with
    [const newStats = [...prev];
     if (isPhish) newStats[1].value++; else newStats[0].value++;
     return newStats;]
    a new array of the same references, and an assignment to the object
    one of them leads to.  [None]: the array has no such index. *)
Module Legacy.

Definition setStats (isPhish : bool) (prev : list Ref) (h : Store)
    : option (list Ref * Store) :=
  let newStats := prev in
  r ← newStats !! (if isPhish then 1%nat else 0%nat);
  item ← h !! r;
  Some (newStats, <[r := bump item]> h).

(** The verdict of the earlier variant, which it computes after its
    simulated delay:
    [const isPhish = url.includes("bank") || url.length > 30;
     const mockRes = { prediction: isPhish ? "Phishing" : "Benign",
                       confidence: (0.7 + Math.random() * 0.29).toFixed(2),
                       risk: isPhish ? "CRITICAL" : "LOW" };] *)
Definition isPhish (url : list N) : bool :=
  JS.includes url (JS.units "bank") || (30 <? Z.of_nat (length url)).

Definition mockRes (url : list N) (rnd : Q) : Result :=
  {| prediction := if isPhish url then "Phishing" else "Benign";
     confidence :=
       JS.toFixed2 (JS.double (JS.double (7 # 10) +
                            JS.double (rnd * JS.double (29 # 100))));
     risk := if isPhish url then "CRITICAL" else "LOW" |}.

(** The entry the interval of the earlier variant builds, from its two
    draws in the order it takes them:
    [msg: `Analyzed URL batch #${Math.floor(Math.random() * 1000)}`,
     level: Math.random() > 0.9 ? 'WARN' : 'INFO'] *)
Definition batchNumber (rnd : Q) : Z := JS.floor (JS.double (rnd * 1000)).

Definition tickLog (rnd flip : Q) (c : Clock) : LogEvent :=
  {| id := now c;
     time := localeTime c;
     msg := "Analyzed URL batch #" +:+ JS.digits (batchNumber rnd);
     level := if negb (Qle_bool flip (JS.double (9 # 10))) then "WARN"
              else "INFO" |}.

(** Its updater, [prev => [newLog, ...prev].slice(0, 5)]: no test of
    [prev], so a value that is not an array throws. *)
Definition tickLogs (newLog : LogEvent) (prev : LogsValue)
    : option LogsValue :=
  match prev with
  | LogArray entries => Some (LogArray (JS.slice0 5 (newLog :: entries)))
  | Absent | NonSequence => None
  end.

End Legacy.

(** ** The [logs] cell and its updaters *)

(** [Array.isArray(prev) ? prev : []] *)
Definition safePrev (prev : LogsValue) : list LogEvent :=
  match prev with
  | LogArray entries => entries
  | Absent | NonSequence => []
  end.

(** The updater of the interval callback:
    [[newLog, ...safePrev].slice(0, 7)]. *)
Definition tickLogs (newLog : LogEvent) (prev : LogsValue) : LogsValue :=
  LogArray (JS.slice0 7 (newLog :: safePrev prev)).

(** The updater of both scan paths: [[entry, ...prev]].  Spreading a value
    that is not iterable throws a TypeError: [None]. *)
Definition scanLogs (entry : LogEvent) (prev : LogsValue) : option LogsValue :=
  match prev with
  | LogArray entries => Some (LogArray (entry :: entries))
  | Absent | NonSequence => None
  end.

(** ** Component state *)

(** An invocation of [analyzeUrl] suspended at an [await].  It keeps the
    [url] of the render that started it. *)
Inductive Task :=
| AwaitFetch (u : string)   (* at [await fetch('/predict', ...)] *)
| AwaitDelay (u : string).  (* at the 800 ms [await] of the [catch] branch *)

Record State :=
  { url : string;
    result : option Result;
    loading : bool;
    backendStatus : string;
    stats : list Entry;
    logs : LogsValue;
    (* the world around the component *)
    inflight : gmap nat Task;   (* suspended invocations, by order of start *)
    started : nat;              (* invocations started so far *)
    requests : list string }.   (* urls POSTed to /predict, oldest first *)

(** The [useState] initial values. *)
Definition initial : State :=
  {| url := "";
     result := None;
     loading := false;
     backendStatus := "Checking...";
     stats := [ {| name := "Benign"; value := 400 |};
                {| name := "Phishing"; value := 300 |} ];
     logs := LogArray [];
     inflight := ∅;
     started := 0;
     requests := [] |}.

(** ** The interval callback *)

Definition batchNumber (rnd : Q) : Z :=
  JS.floor (JS.double (rnd * 9000)) + 1000.

Definition tickLog (rnd : Q) (c : Clock) : LogEvent :=
  {| id := now c;
     time := localeTime c;
     msg := "Auto-scanning batch #" +:+ JS.digits (batchNumber rnd) +:+ "...";
     level := "INFO" |}.

(** [Math.random() > 0.7], the literal being the double nearest to 7/10. *)
Definition coin (flip : Q) : bool :=
  negb (Qle_bool flip (JS.double (7 # 10))).

Definition tick (flip rnd : Q) (c : Clock) (s : State) : State :=
  {| url := url s;
     result := result s;
     loading := loading s;
     backendStatus := backendStatus s;
     stats := tickStats (coin flip) (stats s);
     logs := tickLogs (tickLog rnd c) (logs s);
     inflight := inflight s;
     started := started s;
     requests := requests s |}.

(** ** [analyzeUrl] *)

(** Up to the first [await]: the guard, [setLoading(true)],
    [setResult(null)] and the POST. *)
Definition analyzeUrl (s : State) : State :=
  if (url s =? "")%string then s
  else
    {| url := url s;
       result := None;
       loading := true;
       backendStatus := backendStatus s;
       stats := stats s;
       logs := logs s;
       inflight := <[started s := AwaitFetch (url s)]> (inflight s);
       started := S (started s);
       requests := requests s ++ [url s] |}.

Definition successLog (u : string) (c : Clock) : LogEvent :=
  {| id := now c; time := localeTime c;
     msg := "User Scan Success: " +:+ u; level := "SUCCESS" |}.

Definition simulatedLog (u : string) (c : Clock) : LogEvent :=
  {| id := now c; time := localeTime c;
     msg := "[Simulated] Scan: " +:+ u; level := "WARN" |}.

(** The rest of the [try] block once a body was read, then [finally]. *)
Definition onAnswer (t : nat) (u : string) (data : Payload) (c : Clock)
    (s : State) : option State :=
  logs' ← scanLogs (successLog u c) (logs s);
  Some {| url := url s;
          result := Some {| prediction := data_prediction data;
                            confidence :=
                              JS.toFixed1
                                (JS.double (data_confidence data * 100));
                            risk := data_risk_level data |};
          loading := false;
          backendStatus := "Online";
          stats := scanStats (data_prediction data) (stats s);
          logs := logs';
          inflight := delete t (inflight s);
          started := started s;
          requests := requests s |}.

(** The [catch] branch up to its [await]; its [console.warn] changes no
    state and is left out. *)
Definition onFailure (t : nat) (u : string) (s : State) : State :=
  {| url := url s;
     result := result s;
     loading := loading s;
     backendStatus := "Offline (Simulated Mode)";
     stats := stats s;
     logs := logs s;
     inflight := <[t := AwaitDelay u]> (inflight s);
     started := started s;
     requests := requests s |}.

(** The [catch] branch after its [await], then [finally]. *)
Definition onDelay (t : nat) (u : string) (rnd : Q) (c : Clock)
    (s : State) : option State :=
  logs' ← scanLogs (simulatedLog u c) (logs s);
  Some {| url := url s;
          result := Some (mockRes (JS.units u) rnd);
          loading := false;
          backendStatus := backendStatus s;
          stats := stats s;
          logs := logs';
          inflight := delete t (inflight s);
          started := started s;
          requests := requests s |}.

(** ** Events and the step function *)

Inductive Event :=
| Change (v : string)                       (* typing: [setUrl(e.target.value)] *)
| KeyEnter                                  (* Enter in the input *)
| ClickScan                                 (* a click on the Scan button *)
| Tick (flip rnd : Q) (c : Clock)           (* the interval fires *)
| Settle (t : nat) (r : Response) (c : Clock) (* the request of task [t] ends *)
| Wake (t : nat) (rnd : Q) (c : Clock).     (* the delay of task [t] ends *)

Definition setUrl (v : string) (s : State) : State :=
  {| url := v; result := result s; loading := loading s;
     backendStatus := backendStatus s; stats := stats s; logs := logs s;
     inflight := inflight s; started := started s; requests := requests s |}.

(** [disabled={loading || !url}] *)
Definition buttonDisabled (s : State) : bool :=
  loading s || (url s =? "")%string.

(** One handler run to its next [await] or its end.  [None]: the handler
    threw out of the component.  An event for a task that is not suspended
    where the event expects it cannot happen and leaves the state alone. *)
Definition step (s : State) (e : Event) : option State :=
  match e with
  | Change v => Some (setUrl v s)
  | KeyEnter => Some (analyzeUrl s)
  | ClickScan => Some (if buttonDisabled s then s else analyzeUrl s)
  | Tick flip rnd c => Some (tick flip rnd c s)
  | Settle t r c =>
      match inflight s !! t with
      | Some (AwaitFetch u) =>
          match r with
          | Answer data => onAnswer t u data c s
          | FetchRejected | NotOk | BodyUnusable => Some (onFailure t u s)
          end
      | _ => Some s
      end
  | Wake t rnd c =>
      match inflight s !! t with
      | Some (AwaitDelay u) => onDelay t u rnd c s
      | _ => Some s
      end
  end.

Fixpoint run (s : State) (es : list Event) : option State :=
  match es with
  | [] => Some s
  | e :: rest => s' ← step s e; run s' rest
  end.

(** ** Vocabulary of the properties *)

(** What "[s] contains [pat]" means. *)
Definition contains (s pat : list N) : Prop :=
  ∃ before after, s = before ++ pat ++ after.

(** [x] is a double. *)
Definition isDouble (x : Q) : Prop := (JS.double x == x)%Q.

(** [x] is a value [Math.random()] can return: a double, at least 0 and
    below 1. *)
Definition isDraw (x : Q) : Prop := (0 <= x)%Q ∧ (x < 1)%Q ∧ isDouble x.

(** [stats] as the session keeps it: the two seeded rows, in display order. *)
Definition twoRows (st : list Entry) (b p : Z) : Prop :=
  st = [ {| name := "Benign"; value := b |};
         {| name := "Phishing"; value := p |} ].

(** The sum of the counts, as the pie chart adds its [value]s. *)
Definition total (st : list Entry) : Z := foldr Z.add 0 (value <$> st).

(** [prediction] is one of the two labels the updater looks for. *)
Definition labelled (pred : string) : bool :=
  (pred =? "phishing")%string || (pred =? "benign")%string.

(** What every reachable state satisfies: [stats] holds the two rows with
    counts that are not negative, and [logs] holds an array. *)
Record shaped (s : State) : Prop :=
  { shaped_stats : ∃ b p, twoRows (stats s) b p ∧ 0 ≤ b ∧ 0 ≤ p;
    shaped_logs : ∃ entries, logs s = LogArray entries }.

(** The outcomes an event merges into [stats]: one for every tick, and
    one for an answer that reaches the invocation awaiting it with one
    of the two labels as its prediction. *)
Definition merged (s : State) (e : Event) : Z :=
  match e with
  | Tick _ _ _ => 1
  | Settle t (Answer data) _ =>
      match inflight s !! t with
      | Some (AwaitFetch _) => if labelled (data_prediction data) then 1 else 0
      | _ => 0
      end
  | _ => 0
  end.

(** The outcomes merged by a run of events from [s]. *)
Fixpoint mergedAlong (s : State) (es : list Event) : Z :=
  match es with
  | [] => 0
  | e :: rest =>
      merged s e + match step s e with
                   | Some s' => mergedAlong s' rest
                   | None => 0
                   end
  end.

(** The remote call did not produce a usable answer. *)
Definition failure (r : Response) : bool :=
  match r with
  | Answer _ => false
  | FetchRejected | NotOk | BodyUnusable => true
  end.

(** The status the [catch] branch sets. *)
Definition offline : string := "Offline (Simulated Mode)".

(** The suspended invocation an event resumes, if any. *)
Definition target (e : Event) : option nat :=
  match e with
  | Settle t _ _ | Wake t _ _ => Some t
  | Change _ | KeyEnter | ClickScan | Tick _ _ _ => None
  end.

(** None of the events resumes invocation [t]. *)
Definition elsewhere (t : nat) (es : list Event) : Prop :=
  Forall (λ e, target e ≠ Some t) es.

(** Sample inputs of the concrete sessions below. *)
Definition clock (n : Z) : Clock := {| now := n; localeTime := "10:00:00" |}.

Definition benignAnswer : Payload :=
  {| data_prediction := "benign"; data_confidence := 95 # 100;
     data_risk_level := "LOW" |}.

(** The two seeded objects, at references 0 and 1. *)
Definition seededStore : Store :=
  [ {| name := "Benign"; value := 400 |}; {| name := "Phishing"; value := 300 |} ].

(** ** More of the component: what the page shows, and how a step acts *)

(** The class of the status dot:
    [backendStatus.includes('Online') ? 'bg-green-500' : 'bg-yellow-500']. *)
Definition statusDot (s : State) : string :=
  if JS.includes (JS.units (backendStatus s)) (JS.units "Online")
  then "bg-green-500"
  else "bg-yellow-500".

(** The border of a log row:
    [log.level === 'WARN' ? 'border-yellow-500' :
     log.level === 'SUCCESS' ? 'border-green-500' : 'border-blue-500']. *)
Definition logBorder (e : LogEvent) : string :=
  if (level e =? "WARN")%string then "border-yellow-500"
  else if (level e =? "SUCCESS")%string then "border-green-500"
  else "border-blue-500".

(** The url a suspended invocation was started with. *)
Definition taskUrl (task : Task) : string :=
  match task with
  | AwaitFetch u | AwaitDelay u => u
  end.

(** What one event does to a state, case by case, with the state it
    leaves written out. *)
Inductive Effect (s : State) : Event → State → Prop :=
| EffNone e : Effect s e s
| EffChange v : Effect s (Change v) (setUrl v s)
| EffStart e :
    url s ≠ EmptyString →
    Effect s e
      {| url := url s; result := None; loading := true;
         backendStatus := backendStatus s; stats := stats s; logs := logs s;
         inflight := <[started s := AwaitFetch (url s)]> (inflight s);
         started := S (started s); requests := requests s ++ [url s] |}
| EffTick flip rnd c : Effect s (Tick flip rnd c) (tick flip rnd c s)
| EffFail t r c u :
    inflight s !! t = Some (AwaitFetch u) → failure r = true →
    Effect s (Settle t r c) (onFailure t u s)
| EffAnswer t data c u entries :
    inflight s !! t = Some (AwaitFetch u) → logs s = LogArray entries →
    Effect s (Settle t (Answer data) c)
      {| url := url s;
         result := Some {| prediction := data_prediction data;
                           confidence :=
                             JS.toFixed1
                               (JS.double (data_confidence data * 100));
                           risk := data_risk_level data |};
         loading := false; backendStatus := "Online";
         stats := scanStats (data_prediction data) (stats s);
         logs := LogArray (successLog u c :: entries);
         inflight := delete t (inflight s);
         started := started s; requests := requests s |}
| EffDelay t rnd c u entries :
    inflight s !! t = Some (AwaitDelay u) → logs s = LogArray entries →
    Effect s (Wake t rnd c)
      {| url := url s; result := Some (mockRes (JS.units u) rnd);
         loading := false;
         backendStatus := backendStatus s; stats := stats s;
         logs := LogArray (simulatedLog u c :: entries);
         inflight := delete t (inflight s);
         started := started s; requests := requests s |}.

(** A bound on the entries a run of events can leave beyond the seven a
    tick keeps: the answers and fallback delays that ended since the last
    tick of the run ([acc] of them before the run). *)
Fixpoint pushedSinceTick (acc : nat) (es : list Event) : nat :=
  match es with
  | [] => acc
  | Tick _ _ _ :: rest => pushedSinceTick 0 rest
  | Settle _ (Answer _) _ :: rest | Wake _ _ _ :: rest =>
      pushedSinceTick (S acc) rest
  | _ :: rest => pushedSinceTick acc rest
  end.

(** A run of ticks, given the draws and clock readings of each. *)
Definition tickEvents (ts : list (Q * Q * Clock)) : list Event :=
  (λ '(flip, rnd, c), Tick flip rnd c) <$> ts.

(** The log entries those ticks build, in the order of the ticks. *)
Definition tickEntries (ts : list (Q * Q * Clock)) : list LogEvent :=
  (λ '(flip, rnd, c), tickLog rnd c) <$> ts.

(** Where a log entry comes from: a tick, an answered scan or a fallback,
    the last two for a url that was posted. *)
Inductive logOrigin (s : State) (e : LogEvent) : Prop :=
| FromTick rnd c : e = tickLog rnd c → logOrigin s e
| FromAnswer u c : u ∈ requests s → e = successLog u c → logOrigin s e
| FromFallback u c : u ∈ requests s → e = simulatedLog u c → logOrigin s e.

(** * Properties *)

(** ** Strings and numbers *)

Lemma startsWith_app (pat s : list N) :
  JS.startsWith pat s = true ↔ ∃ after, s = pat ++ after.
Proof.
  revert s. induction pat as [|p pat IH]; intros s; cbn.
  - split; [intros _; by exists s | done].
  - destruct s as [|c s].
    + split; [done | intros [after H]; discriminate H].
    + rewrite andb_true_iff, N.eqb_eq, IH. split.
      * intros [-> [after ->]]. by exists after.
      * intros [after H]. injection H as -> ->. split; [done | by exists after].
Qed.

Lemma includes_contains (s pat : list N) :
  JS.includes s pat = true ↔ contains s pat.
Proof.
  induction s as [|c s IH]; cbn [JS.includes].
  - destruct (JS.startsWith pat []) eqn:Hp.
    + split; [intros _ | done].
      apply startsWith_app in Hp as [after H]. by exists [], after.
    + split; [done | intros [before [after H]]].
      destruct before; [| discriminate H].
      assert (JS.startsWith pat [] = true) by (apply startsWith_app; eauto).
      congruence.
  - destruct (JS.startsWith pat (c :: s)) eqn:Hp.
    + split; [intros _ | done].
      apply startsWith_app in Hp as [after H]. by exists [], after.
    + rewrite IH. split.
      * intros [before [after H]]. exists (c :: before), after.
        cbn. by rewrite H.
      * intros [before [after H]]. destruct before as [|b before].
        -- assert (JS.startsWith pat (c :: s) = true)
             by (apply startsWith_app; eauto).
           congruence.
        -- exists before, after. cbn in H. by injection H.
Qed.

Lemma tenths_bounds (x : Q) (lo hi : Z) :
  (inject_Z lo <= x)%Q → (x <= inject_Z hi)%Q →
  lo * 10 ≤ JS.tenths x ≤ hi * 10.
Proof.
  intros Hlo Hhi. unfold JS.tenths. split.
  - rewrite <- (Qfloor_Z (lo * 10)). apply Qfloor_resp_le.
    rewrite inject_Z_mult.
    apply Qle_trans with (x * 10)%Q.
    + apply Qmult_le_compat_r; [done | by compute].
    + rewrite <- (Qplus_0_r (x * 10)) at 1.
      apply Qplus_le_r. by compute.
  - destruct (Z_lt_le_dec (hi * 10) (Qfloor (x * 10 + (1 # 2)))) as [Hlt|]; [| done].
    exfalso.
    assert (Hf : (inject_Z (hi * 10 + 1) <= x * 10 + (1 # 2))%Q).
    { apply Qle_trans with (inject_Z (Qfloor (x * 10 + (1 # 2)))).
      - rewrite <- Zle_Qle. lia.
      - apply Qfloor_le. }
    assert (Hx : (x * 10 <= inject_Z (hi * 10))%Q).
    { rewrite inject_Z_mult. apply Qmult_le_compat_r; [done | by compute]. }
    rewrite inject_Z_plus in Hf.
    assert (Hc : (inject_Z (hi * 10) + inject_Z 1 <= inject_Z (hi * 10) + (1 # 2))%Q).
    { apply Qle_trans with (x * 10 + (1 # 2))%Q; [done |].
      by apply Qplus_le_l. }
    apply Qplus_le_r in Hc. by compute in Hc.
Qed.

(** ** Rounding to doubles *)

Lemma nearestEven_floor (x : Q) :
  Qfloor x ≤ JS.nearestEven x ≤ Qfloor x + 1.
Proof.
  unfold JS.nearestEven.
  destruct (_ ?= _)%Q; [destruct (Z.even _) | |]; lia.
Qed.

Lemma nearestEven_Z (n : Z) : JS.nearestEven (inject_Z n) = n.
Proof.
  unfold JS.nearestEven. rewrite Qfloor_Z.
  destruct (Qcompare_spec (inject_Z n - inject_Z n) (1 # 2)) as [H|H|H];
    [exfalso | done | exfalso]; lra.
Qed.

Lemma nearestEven_mono (x y : Q) :
  (x <= y)%Q → JS.nearestEven x ≤ JS.nearestEven y.
Proof.
  intros Hxy. pose proof (Qfloor_resp_le x y Hxy) as Hf.
  destruct (Z.eq_dec (Qfloor x) (Qfloor y)) as [Heq|Hne].
  - unfold JS.nearestEven. rewrite Heq.
    destruct (Qcompare_spec (x - inject_Z (Qfloor y)) (1 # 2)) as [Hx|Hx|Hx];
      destruct (Qcompare_spec (y - inject_Z (Qfloor y)) (1 # 2)) as [Hy|Hy|Hy];
      try lia; try (exfalso; lra); destruct (Z.even _); lia.
  - pose proof (nearestEven_floor x). pose proof (nearestEven_floor y). lia.
Qed.

Lemma nearestEven_le (x : Q) (n : Z) :
  (x <= inject_Z n)%Q → JS.nearestEven x ≤ n.
Proof. intros H. rewrite <- (nearestEven_Z n). by apply nearestEven_mono. Qed.

Lemma nearestEven_ge (x : Q) (n : Z) :
  (inject_Z n <= x)%Q → n ≤ JS.nearestEven x.
Proof. intros H. rewrite <- (nearestEven_Z n). by apply nearestEven_mono. Qed.

Lemma pow2_pos (k : Z) : (0 < 2 ^ k)%Q.
Proof. by apply Qpower_0_lt. Qed.

Lemma pow2_add (a b : Z) : (2 ^ (a + b) == 2 ^ a * 2 ^ b)%Q.
Proof. by apply Qpower_plus. Qed.

Lemma pow2_Z (k : Z) : 0 ≤ k → (2 ^ k == inject_Z (2 ^ k))%Q.
Proof. intros Hk. by rewrite (Zpower_Qpower 2 k Hk). Qed.

Lemma pow2_cancel (k : Z) : (2 ^ (- k) * 2 ^ k == 1)%Q.
Proof. rewrite <- pow2_add. by replace (- k + k) with 0 by lia. Qed.

Lemma binade_spec (x : Q) :
  (0 < x)%Q → (2 ^ JS.binade x <= x)%Q ∧ (x < 2 ^ (JS.binade x + 1))%Q.
Proof.
  intros Hx. destruct x as [p q].
  assert (Hp : 0 < p) by (unfold Qlt in Hx; cbn in Hx; lia).
  unfold JS.binade; cbn [Qnum Qden].
  set (lp := Z.log2 p). set (lq := Z.log2 (Z.pos q)).
  destruct (Z.log2_spec p Hp) as [Hp1 Hp2]. fold lp in Hp1, Hp2.
  destruct (Z.log2_spec (Z.pos q) (Pos2Z.is_pos q)) as [Hq1 Hq2].
  fold lq in Hq1, Hq2.
  assert (Hlp : 0 ≤ lp) by apply Z.log2_nonneg.
  assert (Hlq : 0 ≤ lq) by apply Z.log2_nonneg.
  assert (Hup : (p # q < 2 ^ (lp - lq + 1))%Q).
  { replace (lp - lq + 1) with ((lp + 1) - lq) by lia.
    rewrite Qpower_minus by done. rewrite !pow2_Z by lia.
    apply Qlt_shift_div_l.
    - rewrite <- (pow2_Z lq Hlq). apply pow2_pos.
    - unfold Qlt, Qmult, inject_Z; cbn [Qnum Qden].
      rewrite Pos.mul_1_r, Z.mul_1_r. change (Z.succ lp) with (lp + 1) in Hp2.
      apply Z.le_lt_trans with (p * Z.pos q);
        [apply Z.mul_le_mono_nonneg_l | apply Z.mul_lt_mono_pos_r]; lia. }
  assert (Hlow : (2 ^ (lp - lq - 1) <= p # q)%Q).
  { replace (lp - lq - 1) with (lp - (lq + 1)) by lia.
    rewrite Qpower_minus by done. rewrite !pow2_Z by lia.
    apply Qle_shift_div_r.
    - rewrite <- (pow2_Z (lq + 1)) by lia. apply pow2_pos.
    - unfold Qle, Qmult, inject_Z; cbn [Qnum Qden].
      rewrite Pos.mul_1_r, Z.mul_1_r. change (Z.succ lq) with (lq + 1) in Hq2.
      apply Z.le_trans with (p * Z.pos q);
        [apply Z.mul_le_mono_nonneg_r | apply Z.mul_le_mono_nonneg_l]; lia. }
  destruct (Qle_bool (2 ^ (lp - lq)) (p # q)) eqn:Hb.
  - apply Qle_bool_iff in Hb. by split.
  - split; [done |].
    replace (lp - lq - 1 + 1) with (lp - lq) by lia.
    apply Qnot_le_lt. intros Hle. apply Qle_bool_iff in Hle. congruence.
Qed.

Lemma binade_unique (x : Q) (e : Z) :
  (2 ^ e <= x)%Q → (x < 2 ^ (e + 1))%Q → JS.binade x = e.
Proof.
  intros Hlo Hhi.
  assert (Hx : (0 < x)%Q) by (eapply Qlt_le_trans; [apply (pow2_pos e) | done]).
  destruct (binade_spec x Hx) as [Hb1 Hb2].
  assert (JS.binade x < e + 1).
  { apply (Qpower_lt_compat_l_inv 2); [| done].
    eapply Qle_lt_trans; [exact Hb1 | exact Hhi]. }
  assert (e < JS.binade x + 1).
  { apply (Qpower_lt_compat_l_inv 2); [| done].
    eapply Qle_lt_trans; [exact Hlo | exact Hb2]. }
  lia.
Qed.

Lemma binade_mono (x y : Q) :
  (0 < x)%Q → (x <= y)%Q → JS.binade x ≤ JS.binade y.
Proof.
  intros Hx Hxy.
  assert (Hy : (0 < y)%Q) by (eapply Qlt_le_trans; done).
  destruct (binade_spec x Hx) as [Hx1 _].
  destruct (binade_spec y Hy) as [_ Hy2].
  assert (JS.binade x < JS.binade y + 1); [| lia].
  apply (Qpower_lt_compat_l_inv 2); [| done].
  eapply Qle_lt_trans; [exact Hx1 |]. eapply Qle_lt_trans; [exact Hxy | exact Hy2].
Qed.

Lemma roundPositive_eq (x : Q) :
  (JS.roundPositive x ==
   inject_Z (JS.nearestEven (x * 2 ^ (- JS.spacing x))) * 2 ^ JS.spacing x)%Q.
Proof. unfold JS.roundPositive. apply Qred_correct. Qed.

Lemma roundPositive_nonneg (x : Q) : (0 <= x)%Q → (0 <= JS.roundPositive x)%Q.
Proof.
  intros Hx. rewrite roundPositive_eq.
  apply Qmult_le_0_compat; [| apply Qlt_le_weak, pow2_pos].
  change 0%Q with (inject_Z 0). rewrite <- Zle_Qle.
  apply nearestEven_ge. change (inject_Z 0) with 0%Q.
  apply Qmult_le_0_compat; [done | apply Qlt_le_weak, pow2_pos].
Qed.

Lemma roundPositive_mono (x y : Q) :
  (0 < x)%Q → (x <= y)%Q → (JS.roundPositive x <= JS.roundPositive y)%Q.
Proof.
  intros Hx Hxy.
  assert (Hy : (0 < y)%Q) by (eapply Qlt_le_trans; done).
  pose proof (binade_mono x y Hx Hxy) as Hb.
  rewrite !roundPositive_eq.
  destruct (Z.eq_dec (JS.spacing x) (JS.spacing y)) as [Heq|Hne].
  - rewrite Heq. apply Qmult_le_compat_r; [| apply Qlt_le_weak, pow2_pos].
    rewrite <- Zle_Qle. apply nearestEven_mono.
    apply Qmult_le_compat_r; [done | apply Qlt_le_weak, pow2_pos].
  - assert (Hky : JS.spacing y = JS.binade y - 52)
      by (unfold JS.spacing in *; lia).
    assert (Hbx : JS.binade x + 1 ≤ JS.binade y)
      by (unfold JS.spacing in *; lia).
    assert (Hkx : JS.spacing x ≤ JS.spacing y)
      by (unfold JS.spacing in *; lia).
    destruct (binade_spec x Hx) as [_ Hx2].
    destruct (binade_spec y Hy) as [Hy1 _].
    apply Qle_trans with (2 ^ JS.binade y)%Q.
    + (* the rounding of [x] stays at or below the next power of two *)
      assert (Hxb : (x <= 2 ^ JS.binade y)%Q).
      { apply Qlt_le_weak. eapply Qlt_le_trans; [exact Hx2 |].
        by apply Qpower_le_compat_l. }
      assert (Hgrid : (2 ^ JS.binade y ==
                       inject_Z (2 ^ (JS.binade y - JS.spacing x)) *
                       2 ^ JS.spacing x)%Q).
      { rewrite <- pow2_Z by lia. rewrite <- pow2_add.
        by replace (JS.binade y - JS.spacing x + JS.spacing x)
          with (JS.binade y) by lia. }
      rewrite Hgrid.
      apply Qmult_le_compat_r; [| apply Qlt_le_weak, pow2_pos].
      rewrite <- Zle_Qle. apply nearestEven_le.
      rewrite <- pow2_Z by lia.
      replace (JS.binade y - JS.spacing x) with (JS.binade y + - JS.spacing x) by lia.
      rewrite pow2_add.
      apply Qmult_le_compat_r; [done | apply Qlt_le_weak, pow2_pos].
    + (* the rounding of [y] stays at or above the power of two below it *)
      assert (Hgrid : (2 ^ JS.binade y ==
                       inject_Z (2 ^ 52) * 2 ^ JS.spacing y)%Q).
      { rewrite <- pow2_Z by lia. rewrite <- pow2_add.
        by replace (52 + JS.spacing y) with (JS.binade y) by lia. }
      rewrite Hgrid at 1.
      apply Qmult_le_compat_r; [| apply Qlt_le_weak, pow2_pos].
      rewrite <- Zle_Qle. apply nearestEven_ge.
      rewrite <- pow2_Z by lia.
      replace 52 with (JS.binade y + - JS.spacing y) by lia.
      rewrite pow2_add.
      apply Qmult_le_compat_r; [done | apply Qlt_le_weak, pow2_pos].
Qed.

Lemma double_nonneg (x : Q) : (0 <= x)%Q → (0 <= JS.double x)%Q.
Proof.
  intros Hx. unfold JS.double.
  destruct (Qcompare_spec x 0) as [H|H|H]; [lra | lra |].
  by apply roundPositive_nonneg.
Qed.

(** Rounding to the nearest double keeps the order of the exact results. *)
Lemma double_mono (x y : Q) :
  (0 <= x)%Q → (x <= y)%Q → (JS.double x <= JS.double y)%Q.
Proof.
  intros Hx Hxy. unfold JS.double at 1.
  destruct (Qcompare_spec x 0) as [H|H|H]; [| lra |].
  - apply double_nonneg. lra.
  - unfold JS.double. destruct (Qcompare_spec y 0) as [H'|H'|H']; [lra | lra |].
    by apply roundPositive_mono.
Qed.

(** A double below 1 is at most [1 - 2^-53]: between that and 1 the
    doubles are [2^-53] apart. *)
Lemma draw_below_one (x : Q) :
  isDraw x → (x <= 9007199254740991 # 9007199254740992)%Q.
Proof.
  intros (H0 & H1 & Hd).
  destruct (Qlt_le_dec (9007199254740991 # 9007199254740992) x) as [Hgt|]; [| done].
  exfalso.
  assert (Hb : JS.binade x = -1).
  { apply binade_unique; [| exact H1].
    apply Qle_trans with (9007199254740991 # 9007199254740992)%Q;
      [by compute | by apply Qlt_le_weak]. }
  unfold isDouble, JS.double in Hd.
  destruct (Qcompare_spec x 0) as [H|H|H]; [lra | lra |].
  rewrite roundPositive_eq in Hd. unfold JS.spacing in Hd. rewrite Hb in Hd.
  change (Z.max (-1 - 52) (-1074)) with (-53) in Hd.
  set (n := JS.nearestEven (x * 2 ^ (- -53))) in Hd.
  change (2 ^ (-53))%Q with (1 # 9007199254740992)%Q in Hd.
  rewrite <- Hd in H1, Hgt. clearbody n.
  unfold Qlt, Qmult, inject_Z in H1, Hgt; cbn in H1, Hgt. lia.
Qed.

(** ** The fallback evaluator *)

Lemma isPhish_policy (u : list N) :
  isPhish u = true ↔
  contains u (JS.units "bank") ∨ contains u (JS.units "secure") ∨
  (50 < length u)%nat.
Proof.
  unfold isPhish.
  rewrite !orb_true_iff, !includes_contains, Z.ltb_lt.
  split; intros H; destruct_or!; auto; try (right; right; lia).
  left; right; lia.
Qed.

Lemma fallback_confidence_range (rnd : Q) :
  (0 <= rnd)%Q → (rnd < 1)%Q →
  (inject_Z 75 <= JS.double (75 + JS.double (rnd * 20)))%Q ∧
  (JS.double (75 + JS.double (rnd * 20)) <= inject_Z 95)%Q.
Proof.
  intros H0 H1.
  assert (Hlo : (0 <= JS.double (rnd * 20))%Q) by (apply double_nonneg; lra).
  assert (Hhi : (JS.double (rnd * 20) <= 20)%Q).
  { apply Qle_trans with (JS.double 20); [apply double_mono; lra | by vm_compute]. }
  split.
  - apply Qle_trans with (JS.double 75); [by vm_compute | apply double_mono; lra].
  - apply Qle_trans with (JS.double 95); [apply double_mono; lra | by vm_compute].
Qed.

(** C4.  For every url, a sequence of code units, the fallback evaluator
    answers "phishing" exactly when the url contains "bank", contains
    "secure" or is longer than 50 code units, and "benign" otherwise; the
    risk is "CRITICAL" exactly when the answer is "phishing" and "LOW"
    otherwise; and for a draw of [Math.random()] in [0, 1) the confidence,
    computed in doubles, is a number of tenths between 75.0 and 95.0,
    rendered with exactly one decimal digit. *)
Theorem fallback_evaluator_policy (u : list N) (rnd : Q) :
  (0 <= rnd)%Q → (rnd < 1)%Q →
  (prediction (mockRes u rnd) = "phishing" ↔
     contains u (JS.units "bank") ∨ contains u (JS.units "secure") ∨
     (50 < length u)%nat) ∧
  (prediction (mockRes u rnd) = "benign" ↔
     ¬ (contains u (JS.units "bank") ∨ contains u (JS.units "secure") ∨
        (50 < length u)%nat)) ∧
  (risk (mockRes u rnd) = "CRITICAL" ↔ prediction (mockRes u rnd) = "phishing") ∧
  (risk (mockRes u rnd) = "LOW" ↔ prediction (mockRes u rnd) ≠ "phishing") ∧
  ∃ n : Z, 750 ≤ n ≤ 950 ∧
           n = JS.tenths (JS.double (75 + JS.double (rnd * 20))) ∧
           confidence (mockRes u rnd) = JS.render_tenths n.
Proof.
  intros H0 H1. unfold mockRes; cbn [prediction risk confidence].
  rewrite <- isPhish_policy.
  destruct (fallback_confidence_range rnd H0 H1) as [Hlo Hhi].
  repeat split; try (destruct (isPhish u); done).
  exists (JS.tenths (JS.double (75 + JS.double (rnd * 20)))).
  split; [| split; [done |]].
  - by apply (tenths_bounds _ 75 95).
  - unfold JS.toFixed1.
    assert (Hnn : Qle_bool 0 (JS.double (75 + JS.double (rnd * 20))) = true).
    { apply Qle_bool_iff. apply Qle_trans with (inject_Z 75); [by compute | done]. }
    by rewrite Hnn.
Qed.

Lemma fallback_evaluator_policy_witness :
  (0 <= 56294995342131 # 4503599627370496)%Q ∧
  (56294995342131 # 4503599627370496 < 1)%Q ∧
  prediction (mockRes (JS.units "http://secure-bank-login.com")
                      (56294995342131 # 4503599627370496)) = "phishing" ∧
  risk (mockRes (JS.units "http://secure-bank-login.com")
                (56294995342131 # 4503599627370496)) = "CRITICAL" ∧
  confidence (mockRes (JS.units "http://secure-bank-login.com")
                      (56294995342131 # 4503599627370496)) = "75.3".
Proof.
  assert (Ha : (0 <= 56294995342131 # 4503599627370496)%Q) by (by compute).
  assert (Hb : (56294995342131 # 4503599627370496 < 1)%Q) by (by compute).
  destruct (fallback_evaluator_policy (JS.units "http://secure-bank-login.com")
              (56294995342131 # 4503599627370496) Ha Hb)
    as (Hp & _ & Hr & _ & n & _ & Hn & Hc).
  split; [exact Ha | split; [exact Hb |]].
  assert (Hphish : prediction (mockRes (JS.units "http://secure-bank-login.com")
                                 (56294995342131 # 4503599627370496)) = "phishing").
  { apply Hp. left.
    by exists (JS.units "http://secure-"), (JS.units "-login.com"). }
  split; [exact Hphish | split; [by apply Hr |]].
  rewrite Hc, Hn. by vm_compute.
Defined.

(** ** Shape of the state along a session *)

Lemma tickStats_rows (isPhishing : bool) st b p :
  twoRows st b p →
  twoRows (tickStats isPhishing st)
          (if isPhishing then b else b + 1) (if isPhishing then p + 1 else p).
Proof. intros ->. by destruct isPhishing. Qed.

Lemma scanStats_rows (pred : string) st b p :
  twoRows st b p →
  twoRows (scanStats pred st)
          (if (pred =? "benign")%string then b + 1 else b)
          (if (pred =? "phishing")%string then p + 1 else p).
Proof.
  intros ->. unfold scanStats, scanCallback, twoRows; cbn.
  destruct (String.eqb_spec pred "phishing") as [->|]; [done |].
  by destruct (String.eqb_spec pred "benign").
Qed.

Lemma total_rows st b p : twoRows st b p → total st = b + p.
Proof. intros ->. cbn. lia. Qed.

Lemma shaped_initial : shaped initial.
Proof.
  split; [exists 400, 300 | by exists []].
  repeat split; lia.
Qed.

Lemma shaped_analyzeUrl s : shaped s → shaped (analyzeUrl s).
Proof.
  intros [Hs Hl]. unfold analyzeUrl.
  destruct (url s =? "")%string; by split.
Qed.

Lemma shaped_tick flip rnd c s : shaped s → shaped (tick flip rnd c s).
Proof.
  intros [(b & p & Hrows & Hb & Hp) Hl]. split; cbn.
  - eexists _, _. split; [by apply tickStats_rows |].
    destruct (coin flip); lia.
  - unfold tickLogs. eauto.
Qed.

(** No handler throws out of the component from a [shaped] state, and
    the state it leaves is [shaped] again. *)
Lemma step_shaped s e : shaped s → ∃ s', step s e = Some s' ∧ shaped s'.
Proof.
  intros Hs. destruct e as [v| | |flip rnd c|t r c|t rnd c]; cbn.
  - eexists; split; [done |]. destruct Hs; by split.
  - eexists; split; [done |]. by apply shaped_analyzeUrl.
  - eexists; split; [done |].
    destruct (buttonDisabled s); [done | by apply shaped_analyzeUrl].
  - eexists; split; [done |]. by apply shaped_tick.
  - destruct (inflight s !! t) as [[u|u]|]; [| by eauto ..].
    destruct Hs as [(b & p & Hrows & Hb & Hp) [entries Hl]].
    destruct r as [| | |data]; unfold onAnswer, onFailure; rewrite ?Hl; cbn;
      (eexists; split; [done |]); split; cbn; eauto.
    eexists _, _. split; [by apply scanStats_rows |].
    destruct (_ =? "benign")%string, (_ =? "phishing")%string; lia.
  - destruct (inflight s !! t) as [[u|u]|]; [by eauto | | by eauto].
    destruct Hs as [Hrows [entries Hl]].
    unfold onDelay; rewrite Hl; cbn.
    eexists; split; [done |]. split; cbn; eauto.
Qed.

Lemma run_shaped es : ∀ s, shaped s → ∃ s', run s es = Some s' ∧ shaped s'.
Proof.
  induction es as [|e es IH]; intros s Hs; cbn; [by eauto |].
  destruct (step_shaped s e Hs) as (s1 & -> & Hs1). cbn. by apply IH.
Qed.

Lemma run_app es1 : ∀ es2 s,
  run s (es1 ++ es2) = s1 ← run s es1; run s1 es2.
Proof.
  induction es1 as [|e es1 IH]; intros es2 s; cbn; [done |].
  destruct (step s e) as [s'|]; cbn; [apply IH | done].
Qed.

(** ** Aggregate counts *)

Lemma step_counts s e b p :
  shaped s → twoRows (stats s) b p →
  ∃ s' b' p', step s e = Some s' ∧ shaped s' ∧ twoRows (stats s') b' p' ∧
              b ≤ b' ∧ p ≤ p' ∧ b' + p' = b + p + merged s e.
Proof.
  intros Hs Hrows.
  destruct (step_shaped s e Hs) as (s' & Hstep & Hs').
  exists s'.
  cut (∃ b' p', twoRows (stats s') b' p' ∧ b ≤ b' ∧ p ≤ p' ∧
                b' + p' = b + p + merged s e).
  { intros (b' & p' & H). by exists b', p'. }
  assert (Hsame : stats s' = stats s → merged s e = 0 →
                  ∃ b' p', twoRows (stats s') b' p' ∧ b ≤ b' ∧ p ≤ p' ∧
                           b' + p' = b + p + merged s e).
  { intros Heq ->. exists b, p. rewrite Heq. split; [done | lia]. }
  clear Hs'.
  destruct e as [v| | |flip rnd c|t r c|t rnd c]; cbn in Hstep.
  - injection Hstep as <-. by apply Hsame.
  - injection Hstep as <-. apply Hsame; [| done].
    unfold analyzeUrl. by destruct (_ =? _)%string.
  - destruct (buttonDisabled s); injection Hstep as <-;
      (apply Hsame; [| done]); [done |].
    unfold analyzeUrl. by destruct (_ =? _)%string.
  - injection Hstep as <-.
    eexists _, _. split; [by apply tickStats_rows |].
    cbn. destruct (coin flip); lia.
  - destruct (inflight s !! t) as [[u|u]|] eqn:Ht.
    + destruct r as [| | |data].
      1-3: injection Hstep as <-; by apply Hsame.
      destruct Hs as [_ [entries Hl]].
      unfold onAnswer in Hstep. rewrite Hl in Hstep. cbn in Hstep.
      injection Hstep as <-.
      eexists _, _. split; [by apply scanStats_rows |].
      cbn [merged]. rewrite Ht. unfold labelled.
      destruct (String.eqb_spec (data_prediction data) "phishing") as [->|];
        [cbn; lia |].
      destruct (_ =? "benign")%string; cbn; lia.
    + injection Hstep as <-. apply Hsame; [done |].
      cbn. rewrite Ht. by destruct r.
    + injection Hstep as <-. apply Hsame; [done |].
      cbn. rewrite Ht. by destruct r.
  - destruct (inflight s !! t) as [[u|u]|] eqn:Ht.
    1,3: injection Hstep as <-; by apply Hsame.
    apply Hsame; [| done].
    unfold onDelay in Hstep. destruct (scanLogs _ _); [| done].
    cbn in Hstep. by injection Hstep as <-.
Qed.

Lemma run_counts es : ∀ s b p,
  shaped s → twoRows (stats s) b p →
  ∃ s' b' p', run s es = Some s' ∧ shaped s' ∧ twoRows (stats s') b' p' ∧
              b ≤ b' ∧ p ≤ p' ∧ b' + p' = b + p + mergedAlong s es.
Proof.
  induction es as [|e es IH]; intros s b p Hs Hrows; cbn.
  - exists s, b, p. do 3 (split; [done |]). lia.
  - destruct (step_counts s e b p Hs Hrows)
      as (s1 & b1 & p1 & -> & Hs1 & Hrows1 & Hb & Hp & Hsum).
    destruct (IH s1 b1 p1 Hs1 Hrows1)
      as (s2 & b2 & p2 & Hrun & Hs2 & Hrows2 & Hb2 & Hp2 & Hsum2).
    exists s2, b2, p2. cbn. do 3 (split; [done |]). lia.
Qed.

Lemma mergedAlong_app es1 : ∀ es2 s s1,
  run s es1 = Some s1 →
  mergedAlong s (es1 ++ es2) = mergedAlong s es1 + mergedAlong s1 es2.
Proof.
  induction es1 as [|e es1 IH]; intros es2 s s1 Hrun; cbn in *.
  - injection Hrun as ->. lia.
  - destruct (step s e) as [s'|]; [| done]. cbn in Hrun.
    rewrite (IH es2 s' s1 Hrun). lia.
Qed.

(** The claim of C5 as it is written fails before any event: the seeded
    rows already total 700 while nothing has been merged. *)
Lemma seed_total_is_not_merge_count :
  run initial [] = Some initial ∧
  total (stats initial) = 700 ∧ mergedAlong initial [] = 0 ∧
  total (stats initial) ≠ mergedAlong initial [].
Proof. repeat split. cbn. lia. Qed.

(** C5 (amended).  Along every session, split at any point into a first
    and a second run of events: both counts are non-negative, neither is
    smaller after the second run than before it, and the total of the
    counts is the seed (400 + 300) plus the number of outcomes merged. *)
Theorem counts_monotone_and_seed_plus_merges (es1 es2 : list Event) :
  ∃ s1 s2 b1 p1 b2 p2,
    run initial es1 = Some s1 ∧ run initial (es1 ++ es2) = Some s2 ∧
    twoRows (stats s1) b1 p1 ∧ twoRows (stats s2) b2 p2 ∧
    0 ≤ b1 ≤ b2 ∧ 0 ≤ p1 ≤ p2 ∧
    total (stats s2) = 700 + mergedAlong initial (es1 ++ es2).
Proof.
  destruct (run_counts es1 initial 400 300 shaped_initial eq_refl)
    as (s1 & b1 & p1 & Hrun1 & Hs1 & Hrows1 & Hb1 & Hp1 & Hsum1).
  destruct (run_counts es2 s1 b1 p1 Hs1 Hrows1)
    as (s2 & b2 & p2 & Hrun2 & Hs2 & Hrows2 & Hb2 & Hp2 & Hsum2).
  exists s1, s2, b1, p1, b2, p2.
  rewrite run_app, Hrun1. cbn.
  rewrite (mergedAlong_app es1 es2 initial s1 Hrun1).
  rewrite (total_rows _ _ _ Hrows2).
  do 4 (split; [done |]). lia.
Qed.

(** ** Connectivity status *)

Lemma run_reaches_shaped es s : run initial es = Some s → shaped s.
Proof.
  intros Hrun. destruct (run_shaped es initial shaped_initial) as (s' & H & Hs).
  congruence.
Qed.

Lemma step_offline s e s' :
  step s e = Some s' → backendStatus s' = offline →
  backendStatus s = offline ∨
  ∃ t r c u, e = Settle t r c ∧ failure r = true ∧
             inflight s !! t = Some (AwaitFetch u).
Proof.
  intros Hstep Hoff.
  destruct e as [v| | |flip rnd c|t r c|t rnd c]; cbn in Hstep.
  - injection Hstep as <-. by left.
  - injection Hstep as <-. left. revert Hoff. unfold analyzeUrl.
    by destruct (_ =? _)%string.
  - injection Hstep as <-. left. revert Hoff.
    destruct (buttonDisabled s); [done |].
    unfold analyzeUrl. by destruct (_ =? _)%string.
  - injection Hstep as <-. by left.
  - destruct (inflight s !! t) as [[u|u]|] eqn:Ht.
    + destruct r as [| | |data].
      1-3: right; by eexists t, _, c, u.
      unfold onAnswer in Hstep. destruct (scanLogs _ _); [| done].
      cbn in Hstep. injection Hstep as <-. discriminate Hoff.
    + injection Hstep as <-. by left.
    + injection Hstep as <-. by left.
  - destruct (inflight s !! t) as [[u|u]|] eqn:Ht.
    1,3: injection Hstep as <-; by left.
    unfold onDelay in Hstep. destruct (scanLogs _ _); [| done].
    cbn in Hstep. injection Hstep as <-. by left.
Qed.

Lemma run_offline es : ∀ s0 s,
  run s0 es = Some s → backendStatus s = offline →
  backendStatus s0 = offline ∨
  ∃ es1 t r c es2 s1 u,
    es = es1 ++ Settle t r c :: es2 ∧ failure r = true ∧
    run s0 es1 = Some s1 ∧ inflight s1 !! t = Some (AwaitFetch u).
Proof.
  induction es as [|e es IH]; intros s0 s Hrun Hoff; cbn in Hrun.
  - injection Hrun as ->. by left.
  - destruct (step s0 e) as [s1|] eqn:Hstep; [| done]. cbn in Hrun.
    destruct (IH s1 s Hrun Hoff) as [H1 | (es1 & t & r & c & es2 & s2 & u & -> & Hr & Hrun1 & Ht)].
    + destruct (step_offline s0 e s1 Hstep H1) as [H0 | (t & r & c & u & -> & Hr & Ht)];
        [by left | right].
      by exists [], t, r, c, es, s0, u.
    + right. exists (e :: es1), t, r, c, es2, s2, u.
      repeat split; try done. cbn. by rewrite Hstep.
Qed.

(** C6.  In every state a session can reach: an answer that reaches the
    invocation awaiting it leaves the status "Online"; a failed call
    leaves it "Offline (Simulated Mode)"; a tick leaves it as it was; and
    if the status is the offline one, then somewhere earlier in the
    session a remote call, awaited by an invocation, failed. *)
Theorem connectivity_follows_remote_calls (es : list Event) (s : State) :
  run initial es = Some s →
  (∀ t u data c, inflight s !! t = Some (AwaitFetch u) →
     ∃ s', step s (Settle t (Answer data) c) = Some s' ∧
           backendStatus s' = "Online") ∧
  (∀ t u r c, inflight s !! t = Some (AwaitFetch u) → failure r = true →
     ∃ s', step s (Settle t r c) = Some s' ∧ backendStatus s' = offline) ∧
  (∀ flip rnd c,
     ∃ s', step s (Tick flip rnd c) = Some s' ∧
           backendStatus s' = backendStatus s) ∧
  (backendStatus s = offline →
     ∃ es1 t r c es2 s1 u,
       es = es1 ++ Settle t r c :: es2 ∧ failure r = true ∧
       run initial es1 = Some s1 ∧ inflight s1 !! t = Some (AwaitFetch u)).
Proof.
  intros Hrun. pose proof (run_reaches_shaped es s Hrun) as [_ [entries Hl]].
  repeat split.
  - intros t u data c Ht. cbn. rewrite Ht. unfold onAnswer. rewrite Hl. cbn.
    by eexists.
  - intros t u r c Ht Hr. cbn. rewrite Ht.
    destruct r; [| | | done]; by eexists.
  - intros flip rnd c. by eexists.
  - intros Hoff.
    destruct (run_offline es initial s Hrun Hoff) as [H | H]; [done | exact H].
Qed.

Lemma connectivity_follows_remote_calls_witness :
  ∃ s, run initial [Change "http://a.com"; KeyEnter;
                    Settle 0 NotOk {| now := 5; localeTime := "10:00:05" |};
                    Tick (1 # 2) (1 # 4) {| now := 6; localeTime := "10:00:06" |}]
       = Some s ∧
       backendStatus s = offline ∧
       ∃ es1 t r c es2 s1 u,
         [Change "http://a.com"; KeyEnter;
          Settle 0 NotOk {| now := 5; localeTime := "10:00:05" |};
          Tick (1 # 2) (1 # 4) {| now := 6; localeTime := "10:00:06" |}]
         = es1 ++ Settle t r c :: es2 ∧ failure r = true ∧
         run initial es1 = Some s1 ∧ inflight s1 !! t = Some (AwaitFetch u).
Proof.
  eexists. split; [reflexivity |]. split; [reflexivity |].
  eapply (connectivity_follows_remote_calls _ _); reflexivity.
Defined.

(** ** A scan settles *)

Lemma step_keeps_task s e (t : nat) task :
  shaped s → (t < started s)%nat → inflight s !! t = Some task →
  target e ≠ Some t →
  ∃ s', step s e = Some s' ∧ shaped s' ∧ (t < started s')%nat ∧
        inflight s' !! t = Some task.
Proof.
  intros Hs Hlt Ht Hne.
  destruct (step_shaped s e Hs) as (s' & Hstep & Hs').
  exists s'. do 2 (split; [done |]). clear Hs'.
  assert (Hnew : (t < started (analyzeUrl s))%nat ∧
                 inflight (analyzeUrl s) !! t = Some task).
  { unfold analyzeUrl. destruct (_ =? _)%string; cbn; [done |].
    split; [lia |]. rewrite lookup_insert_ne; [done | lia]. }
  destruct e as [v| | |flip rnd c|t' r c|t' rnd c]; cbn in Hstep, Hne.
  - by injection Hstep as <-.
  - by injection Hstep as <-.
  - destruct (buttonDisabled s); by injection Hstep as <-.
  - by injection Hstep as <-.
  - assert (t' ≠ t) by congruence.
    destruct (inflight s !! t') as [[u|u]|]; [| by injection Hstep as <- ..].
    destruct r as [| | |data].
    1-3: injection Hstep as <-; cbn; by rewrite lookup_insert_ne.
    unfold onAnswer in Hstep. destruct (scanLogs _ _); [| done].
    cbn in Hstep. injection Hstep as <-. cbn. by rewrite lookup_delete_ne.
  - assert (t' ≠ t) by congruence.
    destruct (inflight s !! t') as [[u|u]|]; [by injection Hstep as <- | | by injection Hstep as <-].
    unfold onDelay in Hstep. destruct (scanLogs _ _); [| done].
    cbn in Hstep. injection Hstep as <-. cbn. by rewrite lookup_delete_ne.
Qed.

Lemma run_keeps_task es : ∀ s (t : nat) task,
  shaped s → (t < started s)%nat → inflight s !! t = Some task →
  elsewhere t es →
  ∃ s', run s es = Some s' ∧ shaped s' ∧ (t < started s')%nat ∧
        inflight s' !! t = Some task.
Proof.
  induction es as [|e es IH]; intros s t task Hs Hlt Ht Hel; cbn.
  - by exists s.
  - apply Forall_cons in Hel as [He Hel].
    destruct (step_keeps_task s e t task Hs Hlt Ht He) as (s1 & -> & Hs1 & Hlt1 & Ht1).
    cbn. by apply IH.
Qed.

(** C10.  In every state a session can reach, an invocation of
    [analyzeUrl] with a non-empty url first clears the displayed result
    and raises the loading flag; and whatever else happens meanwhile, when
    its request is answered, or when its request fails and the fallback
    delay then ends, the invocation is over with the loading flag down, so
    that the button is disabled only by an empty url. *)
Theorem scan_clears_result_then_settles (es : list Event) (s : State) :
  run initial es = Some s → url s ≠ ""%string →
  result (analyzeUrl s) = None ∧ loading (analyzeUrl s) = true ∧
  inflight (analyzeUrl s) !! started s = Some (AwaitFetch (url s)) ∧
  (∀ mid data c, elsewhere (started s) mid →
     ∃ s', run (analyzeUrl s) (mid ++ [Settle (started s) (Answer data) c])
           = Some s' ∧
           loading s' = false ∧ inflight s' !! started s = None ∧
           buttonDisabled s' = (url s' =? "")%string) ∧
  (∀ mid r c mid' rnd c',
     failure r = true → elsewhere (started s) mid → elsewhere (started s) mid' →
     ∃ s', run (analyzeUrl s)
               (mid ++ [Settle (started s) r c] ++ mid' ++
                [Wake (started s) rnd c'])
           = Some s' ∧
           loading s' = false ∧ inflight s' !! started s = None ∧
           buttonDisabled s' = (url s' =? "")%string).
Proof.
  intros Hrun Hurl.
  pose proof (run_reaches_shaped es s Hrun) as Hs.
  pose proof (shaped_analyzeUrl s Hs) as Hs1.
  assert (Hne : (url s =? "")%string = false) by by apply String.eqb_neq.
  assert (Hlt : (started s < started (analyzeUrl s))%nat)
    by (unfold analyzeUrl; rewrite Hne; cbn; lia).
  assert (Ht : inflight (analyzeUrl s) !! started s = Some (AwaitFetch (url s)))
    by (unfold analyzeUrl; rewrite Hne; cbn; apply lookup_insert_eq).
  split; [by unfold analyzeUrl; rewrite Hne |].
  split; [by unfold analyzeUrl; rewrite Hne |].
  split; [done |]. split.
  - intros mid data c Hmid.
    destruct (run_keeps_task mid _ _ _ Hs1 Hlt Ht Hmid)
      as (s2 & Hrun2 & [_ [entries Hl]] & _ & Ht2).
    rewrite run_app, Hrun2. cbn. rewrite Ht2. unfold onAnswer. rewrite Hl. cbn.
    eexists. split; [done |]. cbn. by rewrite lookup_delete_eq.
  - intros mid r c mid' rnd c' Hr Hmid Hmid'.
    destruct (run_keeps_task mid _ _ _ Hs1 Hlt Ht Hmid)
      as (s2 & Hrun2 & Hs2 & Hlt2 & Ht2).
    rewrite run_app, Hrun2. cbn [mbind option_bind app run]. cbn [step]. rewrite Ht2.
    assert (Hstep : (match r with
                     | Answer data => onAnswer (started s) (url s) data c s2
                     | _ => Some (onFailure (started s) (url s) s2)
                     end) = Some (onFailure (started s) (url s) s2))
      by by destruct r.
    rewrite Hstep. cbn [mbind option_bind].
    assert (Hs3 : shaped (onFailure (started s) (url s) s2))
      by (destruct Hs2; by split).
    assert (Ht3 : inflight (onFailure (started s) (url s) s2) !! started s
                  = Some (AwaitDelay (url s))) by apply lookup_insert_eq.
    destruct (run_keeps_task mid' _ _ _ Hs3 Hlt2 Ht3 Hmid')
      as (s4 & Hrun4 & [_ [entries Hl]] & _ & Ht4).
    rewrite run_app, Hrun4. cbn. rewrite Ht4. unfold onDelay. rewrite Hl. cbn.
    eexists. split; [done |]. cbn. by rewrite lookup_delete_eq.
Qed.

Lemma scan_clears_result_then_settles_witness :
  ∃ s, run initial [Change "http://example.com"] = Some s ∧
       url s ≠ ""%string ∧
       result (analyzeUrl s) = None ∧ loading (analyzeUrl s) = true ∧
       ∃ s', run (analyzeUrl s)
                 ([Tick (1 # 2)%Q (1 # 4)%Q {| now := 1; localeTime := "10:00:01" |}]
                  ++ [Settle (started s) NotOk {| now := 2; localeTime := "10:00:02" |}]
                  ++ [] ++ [Wake (started s) (1 # 3)%Q {| now := 3; localeTime := "10:00:03" |}])
             = Some s' ∧ loading s' = false.
Proof.
  eexists. split; [reflexivity |]. split; [done |].
  edestruct (scan_clears_result_then_settles [Change "http://example.com"] _ eq_refl)
    as (Hres & Hload & _ & _ & Hfall); [done |].
  split; [exact Hres |]. split; [exact Hload |].
  edestruct (Hfall [Tick (1 # 2)%Q (1 # 4)%Q {| now := 1; localeTime := "10:00:01" |}]
                   NotOk {| now := 2; localeTime := "10:00:02" |} []
                   (1 # 3)%Q {| now := 3; localeTime := "10:00:03" |})
    as (s' & Hrun' & Hload' & _); [reflexivity | by repeat constructor | constructor |].
  exists s'. by split.
Defined.

(** ** The background tick *)

Lemma batchNumber_range (rnd : Q) : isDraw rnd → 1000 ≤ batchNumber rnd ≤ 9999.
Proof.
  intros Hdraw. pose proof (draw_below_one rnd Hdraw) as Hmax.
  destruct Hdraw as (H0 & H1 & _).
  unfold batchNumber, JS.floor.
  assert (Hlo : 0 ≤ Qfloor (JS.double (rnd * 9000))).
  { rewrite <- (Qfloor_Z 0). apply Qfloor_resp_le.
    apply double_nonneg. lra. }
  assert (Hhi : Qfloor (JS.double (rnd * 9000)) < 9000).
  { rewrite Zlt_Qlt.
    apply Qle_lt_trans with (JS.double (rnd * 9000)); [apply Qfloor_le |].
    apply Qle_lt_trans
      with (JS.double ((9007199254740991 # 9007199254740992) * 9000));
      [apply double_mono; lra | by vm_compute]. }
  lia.
Qed.

Lemma coin_threshold (flip : Q) :
  (0 <= flip)%Q → isDouble flip → coin flip = true ↔ (7 # 10 < flip)%Q.
Proof.
  intros H0 Hd. unfold coin.
  rewrite negb_true_iff, <- not_true_iff_false, Qle_bool_iff. split.
  - intros Hnle. apply Qnot_le_lt. intros Hle. apply Hnle.
    apply Qle_trans with (JS.double flip); [| by apply double_mono].
    unfold isDouble in Hd. rewrite Hd. apply Qle_refl.
  - intros Hlt Hle.
    assert (Hlit : (JS.double (7 # 10) <= 7 # 10)%Q) by (by vm_compute).
    lra.
Qed.

(** C8.  In every state a session can reach, a tick whose two draws are
    values of [Math.random()] draws its coin as [Math.random() > 0.7]
    (phishing on the draws above 7/10, benign on the rest), adds 1 to the
    count of the drawn label and leaves the other count alone, puts one
    "INFO" entry naming a batch number between 1000 and 9999 in front of
    the entries the log held, kept to the first 7, and sends no request:
    the requests issued, the suspended invocations and every other cell
    are as before. *)
Theorem tick_merges_one_and_logs_one
    (es : list Event) (s : State) (flip rnd : Q) (c : Clock) :
  run initial es = Some s → isDraw flip → isDraw rnd →
  ∃ s' b p n entries,
    step s (Tick flip rnd c) = Some s' ∧
    twoRows (stats s) b p ∧
    (coin flip = true ↔ (7 # 10 < flip)%Q) ∧
    twoRows (stats s') (if coin flip then b else b + 1)
                       (if coin flip then p + 1 else p) ∧
    total (stats s') = total (stats s) + 1 ∧
    1000 ≤ n ≤ 9999 ∧
    logs s = LogArray entries ∧
    logs s' = LogArray (take 7
      ({| id := now c; time := localeTime c;
          msg := "Auto-scanning batch #" +:+ JS.digits n +:+ "...";
          level := "INFO" |} :: entries)) ∧
    requests s' = requests s ∧ inflight s' = inflight s ∧
    started s' = started s ∧ backendStatus s' = backendStatus s ∧
    result s' = result s ∧ loading s' = loading s ∧ url s' = url s.
Proof.
  intros Hrun Hflip Hrnd.
  destruct (run_reaches_shaped es s Hrun) as [(b & p & Hrows & _) [entries Hl]].
  exists (tick flip rnd c s), b, p, (batchNumber rnd), entries.
  split; [done |]. split; [done |].
  split; [destruct Hflip as (H0 & _ & Hd); by apply coin_threshold |].
  pose proof (tickStats_rows (coin flip) _ _ _ Hrows) as Hrows'.
  split; [done |]. split.
  - cbn [tick stats]. rewrite (total_rows _ _ _ Hrows'), (total_rows _ _ _ Hrows).
    destruct (coin flip); lia.
  - split; [by apply batchNumber_range |]. split; [done |].
    split; [| done]. cbn [tick logs]. by rewrite Hl.
Qed.

Lemma tick_merges_one_and_logs_one_witness :
  ∃ s, run initial [Change "http://a.com"; KeyEnter;
                    Settle 0 NotOk {| now := 5; localeTime := "10:00:05" |};
                    Wake 0 (1 # 2) {| now := 6; localeTime := "10:00:06" |}]
       = Some s ∧
       isDraw (3 # 4) ∧
       isDraw (124099189731987 # 4503599627370496) ∧
    ∃ s', step s (Tick (3 # 4) (124099189731987 # 4503599627370496)
                       {| now := 7; localeTime := "10:00:07" |})
          = Some s' ∧
          stats s' = [ {| name := "Benign"; value := 400 |};
                       {| name := "Phishing"; value := 301 |} ] ∧
          logs s' = LogArray
            [ {| id := 7; time := "10:00:07";
                 msg := "Auto-scanning batch #1248..."; level := "INFO" |};
              {| id := 6; time := "10:00:06";
                 msg := "[Simulated] Scan: http://a.com"; level := "WARN" |} ] ∧
          requests s' = ["http://a.com"].
Proof.
  destruct (run initial [Change "http://a.com"; KeyEnter;
                         Settle 0 NotOk {| now := 5; localeTime := "10:00:05" |};
                         Wake 0 (1 # 2) {| now := 6; localeTime := "10:00:06" |}])
    as [s|] eqn:Hrun; [| by vm_compute in Hrun].
  exists s. split; [done |].
  assert (Ha : isDraw (3 # 4)) by (repeat split; by vm_compute).
  assert (Hb : isDraw (124099189731987 # 4503599627370496))
    by (repeat split; by vm_compute).
  do 2 (split; [done |]).
  destruct (tick_merges_one_and_logs_one _ s (3 # 4)
              (124099189731987 # 4503599627370496)
              {| now := 7; localeTime := "10:00:07" |} Hrun Ha Hb) as
    (s' & b & p & n & entries & Hstep & _).
  exists s'. split; [exact Hstep |].
  vm_compute in Hrun. injection Hrun as <-.
  injection Hstep as <-. by vm_compute.
Defined.

(** ** The log buffer *)

Lemma tickLogs_capacity (newLog : LogEvent) (prev : LogsValue) :
  (length (safePrev (tickLogs newLog prev)) ≤ 7)%nat ∧
  head (safePrev (tickLogs newLog prev)) = Some newLog.
Proof.
  split; [| done]. unfold tickLogs, JS.slice0; cbn [safePrev].
  rewrite length_take. lia.
Qed.

(** C3.  After seven ticks the log holds 7 entries; a scan that the
    service answers then pushes its "SUCCESS" entry without cutting the
    log back, and the log holds 8.  A scan that falls back does the same
    with its "WARN" entry. *)
Theorem scan_push_exceeds_capacity :
  (∃ s entries,
     run initial (replicate 7 (Tick (1 # 2) (1 # 2) (clock 1)))
       = Some s ∧
     logs s = LogArray entries ∧ length entries = 7%nat) ∧
  (∃ s entries,
     run initial (replicate 7 (Tick (1 # 2) (1 # 2) (clock 1)) ++
                  [Change "http://a.com"; KeyEnter;
                   Settle 0 (Answer benignAnswer) (clock 2)])
       = Some s ∧
     logs s = LogArray entries ∧ length entries = 8%nat) ∧
  (∃ s entries,
     run initial (replicate 7 (Tick (1 # 2) (1 # 2) (clock 1)) ++
                  [Change "http://a.com"; KeyEnter;
                   Settle 0 FetchRejected (clock 2);
                   Wake 0 (1 # 2) (clock 3)])
       = Some s ∧
     logs s = LogArray entries ∧ length entries = 8%nat).
Proof. repeat split; eexists _, _; (split; [| split]); by vm_compute. Qed.

(** No sequence of events makes a handler fail, and the log cell of the
    state it leads to holds an array. *)
Lemma session_never_halts (es : list Event) :
  ∃ s' entries, run initial es = Some s' ∧ logs s' = LogArray entries.
Proof.
  destruct (run_shaped es initial shaped_initial) as (s' & Hrun & _ & entries & Hl).
  by exists s', entries.
Qed.


(** ** Submissions *)

Lemma guarded_submit_is_noop (s : State) :
  (url s = ""%string → step s KeyEnter = Some s ∧ step s ClickScan = Some s) ∧
  (loading s = true → step s ClickScan = Some s).
Proof.
  split.
  - intros Hu. cbn. unfold buttonDisabled, analyzeUrl. rewrite Hu. cbn.
    by destruct (loading s).
  - intros Hl. cbn. unfold buttonDisabled. by rewrite Hl.
Qed.

(** The success path merges one outcome: an answer labelled "phishing"
    or "benign" that reaches its invocation raises the total by 1. *)
Lemma answer_merges_one (es : list Event) (s : State) (t : nat) (u : string)
    (data : Payload) (c : Clock) :
  run initial es = Some s → inflight s !! t = Some (AwaitFetch u) →
  labelled (data_prediction data) = true →
  ∃ s', step s (Settle t (Answer data) c) = Some s' ∧
        total (stats s') = total (stats s) + 1.
Proof.
  intros Hrun Ht Hlab.
  pose proof (run_reaches_shaped es s Hrun) as Hs.
  destruct (shaped_stats s Hs) as (b & p & Hrows & _).
  destruct (step_counts s (Settle t (Answer data) c) b p Hs Hrows)
    as (s' & b' & p' & Hstep & _ & Hrows' & _ & _ & Hsum).
  exists s'. split; [done |].
  rewrite (total_rows _ _ _ Hrows), (total_rows _ _ _ Hrows').
  cbn in Hsum. rewrite Ht, Hlab in Hsum. lia.
Qed.

(** The fallback path merges none, from any state: neither the failed
    request nor the end of the delay touches [stats]. *)
Lemma fallback_keeps_stats (s s' : State) (t : nat) :
  (∀ r c, failure r = true → step s (Settle t r c) = Some s' →
          stats s' = stats s) ∧
  (∀ rnd c, step s (Wake t rnd c) = Some s' → stats s' = stats s).
Proof.
  split.
  - intros r c Hr Hstep. cbn in Hstep.
    destruct (inflight s !! t) as [[u|u]|]; [| by injection Hstep as <- ..].
    destruct r; [| | | done]; by injection Hstep as <-.
  - intros rnd c Hstep. cbn in Hstep.
    destruct (inflight s !! t) as [[u|u]|];
      [by injection Hstep as <- | | by injection Hstep as <-].
    unfold onDelay in Hstep. destruct (scanLogs _ _); [| done].
    cbn in Hstep. by injection Hstep as <-.
Qed.

(** C1.  A submission whose request is rejected runs the fallback: the
    simulated verdict is displayed and logged, the status goes offline,
    and [stats] is exactly as seeded: no outcome was merged. *)
Theorem fallback_outcome_is_not_merged :
  ∃ s, run initial [Change "http://secure-bank-login.com"; KeyEnter;
                    Settle 0 FetchRejected (clock 1); Wake 0 (1 # 2) (clock 2)]
       = Some s ∧
       result s = Some {| prediction := "phishing"; confidence := "85.0";
                          risk := "CRITICAL" |} ∧
       logs s = LogArray [simulatedLog "http://secure-bank-login.com" (clock 2)] ∧
       backendStatus s = offline ∧ loading s = false ∧
       stats s = stats initial ∧
       mergedAlong initial
         [Change "http://secure-bank-login.com"; KeyEnter;
          Settle 0 FetchRejected (clock 1); Wake 0 (1 # 2) (clock 2)] = 0.
Proof. eexists. repeat split; by vm_compute. Qed.

(** C2.  Enter pressed twice before the first request is answered starts
    two invocations: two requests go out and, both answered "benign", two
    outcomes are merged.  The button, disabled while loading, lets only
    the first click through. *)
Theorem enter_while_scanning_starts_second_scan :
  (∃ s, run initial [Change "http://example.com"; KeyEnter; KeyEnter;
                     Settle 0 (Answer benignAnswer) (clock 1);
                     Settle 1 (Answer benignAnswer) (clock 2)]
        = Some s ∧
        requests s = ["http://example.com"; "http://example.com"] ∧
        stats s = [ {| name := "Benign"; value := 402 |};
                    {| name := "Phishing"; value := 300 |} ]) ∧
  (∃ s, run initial [Change "http://example.com"; ClickScan; ClickScan;
                     Settle 0 (Answer benignAnswer) (clock 1);
                     Settle 1 (Answer benignAnswer) (clock 2)]
        = Some s ∧
        requests s = ["http://example.com"] ∧
        stats s = [ {| name := "Benign"; value := 401 |};
                    {| name := "Phishing"; value := 300 |} ]).
Proof. split; eexists; repeat split; by vm_compute. Qed.

(** ** Snapshots of [stats] *)

Lemma snapshot_grow (h ext : Store) (arr : list Ref) (seen : list Entry) :
  snapshot h arr = Some <$> seen → snapshot (h ++ ext) arr = Some <$> seen.
Proof.
  revert seen. induction arr as [|r arr IH]; intros [|e seen] H; try done.
  cbn in H |- *. injection H as Hr Hrest.
  rewrite (lookup_app_l_Some _ _ _ _ Hr). f_equal. by apply IH.
Qed.

(** [map] with the callbacks of this component allocates and never
    assigns: the store only grows, the new array reads as the updater's
    value on what the old array read, and the old array reads as before. *)
Lemma mapStore_spec (prev : list Ref) :
  ∀ (callback : nat → Entry → Returned) (h : Store) (entries : list Entry),
    snapshot h prev = Some <$> entries →
    ∃ arr ext,
      mapStore callback prev h = Some (arr, h ++ ext) ∧
      snapshot (h ++ ext) arr
      = Some <$> imap (λ index item, returned (callback index item) item) entries.
Proof.
  induction prev as [|r rest IH]; intros callback h [|e entries] H; try done.
  - exists [], []. by rewrite app_nil_r.
  - cbn in H. injection H as Hr Hrest. cbn [mapStore]. rewrite Hr. cbn.
    destruct (callback 0%nat e) as [obj|] eqn:Hcb.
    + destruct (IH (callback ∘ S) (h ++ [obj]) entries
                   (snapshot_grow _ _ _ _ Hrest)) as (arr & ext & -> & Hsnap).
      exists (length h :: arr), ([obj] ++ ext). cbn.
      rewrite <- (assoc_L (++)) in *. split; [done |].
      f_equal; [| exact Hsnap].
      by apply list_lookup_middle.
    + destruct (IH (callback ∘ S) h entries Hrest) as (arr & ext & -> & Hsnap).
      exists (r :: arr), ext. cbn. split; [done |].
      f_equal; [| exact Hsnap]. by apply lookup_app_l_Some.
Qed.

(** Both updaters of [App.jsx] leave every array taken earlier reading
    what it read, and give the new array the value of the updater. *)
Lemma updaters_keep_earlier_snapshots
    (h : Store) (prev old : list Ref) (entries seen : list Entry) :
  snapshot h prev = Some <$> entries → snapshot h old = Some <$> seen →
  (∀ isPhishing, ∃ arr h',
     mapStore (tickCallback isPhishing) prev h = Some (arr, h') ∧
     snapshot h' arr = Some <$> tickStats isPhishing entries ∧
     snapshot h' old = Some <$> seen) ∧
  (∀ pred, ∃ arr h',
     mapStore (λ _, scanCallback pred) prev h = Some (arr, h') ∧
     snapshot h' arr = Some <$> scanStats pred entries ∧
     snapshot h' old = Some <$> seen).
Proof.
  intros Hprev Hold. split.
  - intros isPhishing.
    destruct (mapStore_spec prev (tickCallback isPhishing) h entries Hprev)
      as (arr & ext & Hmap & Hsnap).
    exists arr, (h ++ ext). split; [done |]. split; [done |].
    by apply snapshot_grow.
  - intros pred.
    destruct (mapStore_spec prev (λ _, scanCallback pred) h entries Hprev)
      as (arr & ext & Hmap & Hsnap).
    exists arr, (h ++ ext). split; [done |]. split; [| by apply snapshot_grow].
    rewrite Hsnap. f_equal.
    exact (imap_const (λ item, returned (scanCallback pred item) item) entries).
Qed.

(** The only rows a merge changes: with the two seeded rows, the tick
    bumps the row at the drawn index and the scan the row whose name is
    the prediction, each by exactly 1; every other row is returned as it
    was given. *)
Lemma updaters_bump_one_row (b p : Z) (isPhishing : bool) (pred : string) :
  tickStats isPhishing [ {| name := "Benign"; value := b |};
                         {| name := "Phishing"; value := p |} ]
  = [ {| name := "Benign"; value := if isPhishing then b else b + 1 |};
      {| name := "Phishing"; value := if isPhishing then p + 1 else p |} ] ∧
  scanStats pred [ {| name := "Benign"; value := b |};
                   {| name := "Phishing"; value := p |} ]
  = [ {| name := "Benign";
         value := if (pred =? "benign")%string then b + 1 else b |};
      {| name := "Phishing";
         value := if (pred =? "phishing")%string then p + 1 else p |} ].
Proof.
  split; [by destruct isPhishing |].
  unfold scanStats, scanCallback; cbn.
  destruct (String.eqb_spec pred "phishing") as [->|]; [done |].
  by destruct (String.eqb_spec pred "benign").
Qed.

(** C7.  On the seeded store, with [stats] the array of references 0 and
    1: the updater of [App.jsx] allocates the bumped row and the array
    taken before still reads 400 and 300; the updater of the earlier
    variant returns an array of the same references and has assigned to
    the object behind one of them, so the array taken before now reads
    301 phishing. *)
Theorem legacy_merge_changes_earlier_snapshot :
  (∃ arr h',
     mapStore (tickCallback true) [0; 1]%nat seededStore = Some (arr, h') ∧
     snapshot h' arr = [ Some {| name := "Benign"; value := 400 |};
                         Some {| name := "Phishing"; value := 301 |} ] ∧
     snapshot h' [0; 1]%nat = snapshot seededStore [0; 1]%nat) ∧
  (∃ arr h',
     Legacy.setStats true [0; 1]%nat seededStore = Some (arr, h') ∧
     arr = [0; 1]%nat ∧
     snapshot seededStore [0; 1]%nat
     = [ Some {| name := "Benign"; value := 400 |};
         Some {| name := "Phishing"; value := 300 |} ] ∧
     snapshot h' [0; 1]%nat
     = [ Some {| name := "Benign"; value := 400 |};
         Some {| name := "Phishing"; value := 301 |} ] ∧
     snapshot h' [0; 1]%nat ≠ snapshot seededStore [0; 1]%nat).
Proof. split; eexists _, _; repeat split; done. Qed.

(** * More properties of the component *)

(** ** Induction over sessions *)

Lemma step_Effect s e s' : step s e = Some s' → Effect s e s'.
Proof.
  intros Hstep.
  assert (Hstart : Effect s e (analyzeUrl s)).
  { unfold analyzeUrl. destruct (String.eqb_spec (url s) "") as [|Hne];
      [constructor | by apply EffStart]. }
  destruct e as [v| | |flip rnd c|t r c|t rnd c]; cbn in Hstep.
  - injection Hstep as <-. constructor.
  - by injection Hstep as <-.
  - destruct (buttonDisabled s); injection Hstep as <-; [constructor | done].
  - injection Hstep as <-. constructor.
  - destruct (inflight s !! t) as [[u|u]|] eqn:Ht;
      [| injection Hstep as <-; constructor ..].
    destruct r as [| | |data].
    1-3: injection Hstep as <-; by apply EffFail.
    unfold onAnswer in Hstep.
    destruct (logs s) as [| |entries] eqn:Hl; [done | done |].
    cbn in Hstep. injection Hstep as <-. by apply EffAnswer.
  - destruct (inflight s !! t) as [[u|u]|] eqn:Ht;
      [injection Hstep as <-; constructor | | injection Hstep as <-; constructor].
    unfold onDelay in Hstep.
    destruct (logs s) as [| |entries] eqn:Hl; [done | done |].
    cbn in Hstep. injection Hstep as <-. by apply EffDelay.
Qed.

Lemma reachable_ind (P : State → Prop) :
  P initial →
  (∀ es s e s', run initial es = Some s → P s → Effect s e s' → P s') →
  ∀ es s, run initial es = Some s → P s.
Proof.
  intros H0 Hstep es.
  induction es as [|e es IH] using rev_ind; intros s Hrun.
  - by injection Hrun as <-.
  - rewrite run_app in Hrun.
    destruct (run initial es) as [s0|] eqn:Hrun0; [| done].
    cbn in Hrun. destruct (step s0 e) as [s1|] eqn:Hs1; [| done].
    cbn in Hrun. injection Hrun as <-.
    apply (Hstep es s0 e s1 Hrun0 (IH s0 eq_refl)). by apply step_Effect.
Qed.

(** ** Requests and suspended invocations *)

Lemma tracked_reachable (es : list Event) (s : State) :
  run initial es = Some s →
  length (requests s) = started s ∧
  Forall (λ u, u ≠ EmptyString) (requests s) ∧
  ∀ t task, inflight s !! t = Some task →
            requests s !! t = Some (taskUrl task).
Proof.
  revert es s. apply reachable_ind.
  - split; [done |]. split; [constructor |]. intros t task H. by cbn in H.
  - intros es s e s' _ (Hlen & Hne & Htasks) Heff.
    destruct Heff as [e|v|e Hurl|flip rnd c|t r c u Ht Hr
                      |t data c u entries Ht Hl|t rnd c u entries Ht Hl]; cbn;
      try done.
    + split; [rewrite length_app; cbn; lia |].
      split; [apply Forall_app; split; [done | by constructor] |].
      intros t task. destruct (decide (t = started s)) as [->|Hneq].
      * rewrite lookup_insert_eq. intros [= <-]. cbn.
        rewrite <- Hlen. by apply list_lookup_middle.
      * rewrite lookup_insert_ne; [| done]. intros H.
        apply lookup_app_l_Some. by apply Htasks.
    + do 2 (split; [done |]).
      intros t' task. destruct (decide (t' = t)) as [->|Hneq].
      * rewrite lookup_insert_eq. intros [= <-]. by apply (Htasks t _ Ht).
      * rewrite lookup_insert_ne; [| done]. by apply Htasks.
    + do 2 (split; [done |]).
      intros t' task H. apply lookup_delete_Some in H as [_ H].
      by apply Htasks.
    + do 2 (split; [done |]).
      intros t' task H. apply lookup_delete_Some in H as [_ H].
      by apply Htasks.
Qed.

(** X1.  In every state a session can reach, the requests sent are as
    many as the invocations started, none of them carries an empty url,
    and every suspended invocation is one of those started, waiting on
    the url that its own request carried. *)
Theorem one_request_per_invocation (es : list Event) (s : State) :
  run initial es = Some s →
  length (requests s) = started s ∧
  Forall (λ u, u ≠ EmptyString) (requests s) ∧
  ∀ t task, inflight s !! t = Some task →
            (t < started s)%nat ∧ requests s !! t = Some (taskUrl task).
Proof.
  intros Hrun. destruct (tracked_reachable es s Hrun) as (Hlen & Hne & Htasks).
  do 2 (split; [done |]). intros t task Ht.
  pose proof (Htasks t task Ht) as Hreq. split; [| done].
  rewrite <- Hlen. by apply lookup_lt_Some in Hreq.
Qed.

Lemma one_request_per_invocation_witness :
  ∃ s, run initial [Change "http://a.com"; KeyEnter; Change EmptyString;
                    KeyEnter; ClickScan; Change "http://b.com"; KeyEnter]
       = Some s ∧
       requests s = ["http://a.com"; "http://b.com"] ∧
       length (requests s) = started s ∧
       Forall (λ u, u ≠ EmptyString) (requests s).
Proof.
  eexists. split; [reflexivity |]. split; [reflexivity |].
  edestruct (one_request_per_invocation
               [Change "http://a.com"; KeyEnter; Change EmptyString;
                KeyEnter; ClickScan; Change "http://b.com"; KeyEnter] _ eq_refl)
    as (Hlen & Hne & _).
  split; [exact Hlen | exact Hne].
Defined.

(** X2.  In every state a session can reach, a raised loading flag (the
    spinner, the disabled button) means the invocation started last is
    still suspended: the flag is never left up with nothing to lower it. *)
Theorem loading_means_a_scan_is_pending (es : list Event) (s : State) :
  run initial es = Some s → loading s = true →
  (0 < started s)%nat ∧ ∃ task, inflight s !! Nat.pred (started s) = Some task.
Proof.
  revert es s. apply (reachable_ind (λ s, loading s = true →
    (0 < started s)%nat ∧ ∃ task, inflight s !! Nat.pred (started s) = Some task)).
  - done.
  - intros es s e s' _ IH Heff.
    destruct Heff as [e|v|e Hurl|flip rnd c|t r c u Ht Hr
                      |t data c u entries Ht Hl|t rnd c u entries Ht Hl]; cbn;
      try done.
    + intros _. split; [lia |]. rewrite lookup_insert_eq. by eexists.
    + intros Hload. destruct (IH Hload) as [Hpos [task Htask]].
      split; [done |].
      destruct (decide (Nat.pred (started s) = t)) as [<-|Hneq].
      * rewrite lookup_insert_eq. by eexists.
      * rewrite lookup_insert_ne; [by eexists | done].
Qed.

Lemma loading_means_a_scan_is_pending_witness :
  ∃ s, run initial [Change "http://a.com"; KeyEnter;
                    Settle 0 NotOk {| now := 1; localeTime := "10:00:01" |}]
       = Some s ∧
       loading s = true ∧
       inflight s !! Nat.pred (started s) = Some (AwaitDelay "http://a.com").
Proof.
  eexists. split; [reflexivity |]. split; [reflexivity |].
  edestruct (loading_means_a_scan_is_pending
               [Change "http://a.com"; KeyEnter;
                Settle 0 NotOk {| now := 1; localeTime := "10:00:01" |}]
               _ eq_refl eq_refl) as (_ & task & Htask).
  rewrite Htask. f_equal. vm_compute in Htask. by injection Htask.
Defined.

(** ** The status line *)

(** X3.  In every state a session can reach the status is one of
    "Checking...", "Online" and "Offline (Simulated Mode)", and the dot
    beside it is green exactly when the status is "Online". *)
Theorem status_is_one_of_three (es : list Event) (s : State) :
  run initial es = Some s →
  (backendStatus s = "Checking..." ∨ backendStatus s = "Online" ∨
   backendStatus s = offline) ∧
  (statusDot s = "bg-green-500" ↔ backendStatus s = "Online").
Proof.
  intros Hrun.
  assert (H3 : backendStatus s = "Checking..." ∨ backendStatus s = "Online" ∨
               backendStatus s = offline).
  { revert es s Hrun. apply reachable_ind; [by left |].
    intros es s e s' _ IH Heff.
    destruct Heff; cbn; auto. }
  split; [done |]. unfold statusDot.
  destruct H3 as [-> | [-> | ->]]; by vm_compute.
Qed.

Lemma status_is_one_of_three_witness :
  ∃ s, run initial [Change "http://a.com"; KeyEnter;
                    Settle 0 FetchRejected {| now := 1; localeTime := "10:00:01" |}]
       = Some s ∧
       backendStatus s = offline ∧ statusDot s ≠ "bg-green-500".
Proof.
  eexists. split; [reflexivity |]. split; [reflexivity |].
  edestruct (status_is_one_of_three
               [Change "http://a.com"; KeyEnter;
                Settle 0 FetchRejected {| now := 1; localeTime := "10:00:01" |}]
               _ eq_refl) as (_ & Hdot).
  intros Hgreen. apply Hdot in Hgreen. discriminate Hgreen.
Defined.

Lemma checking_invariant (es : list Event) (s : State) :
  run initial es = Some s → backendStatus s = "Checking..." →
  result s = None ∧
  (∀ t, (t < started s)%nat → ∃ u, inflight s !! t = Some (AwaitFetch u)) ∧
  (∀ t task, inflight s !! t = Some task → ∃ u, task = AwaitFetch u) ∧
  Forall (λ e, level e = "INFO") (safePrev (logs s)).
Proof.
  revert es s. apply (reachable_ind (λ s, backendStatus s = "Checking..." →
    result s = None ∧
    (∀ t, (t < started s)%nat → ∃ u, inflight s !! t = Some (AwaitFetch u)) ∧
    (∀ t task, inflight s !! t = Some task → ∃ u, task = AwaitFetch u) ∧
    Forall (λ e, level e = "INFO") (safePrev (logs s)))).
  - intros _. split; [done |]. split; [intros t Ht; cbn in Ht; lia |].
    split; [intros t task H; by cbn in H | constructor].
  - intros es s e s' _ IH Heff.
    destruct Heff as [e|v|e Hurl|flip rnd c|t r c u Ht Hr
                      |t data c u entries Ht Hl|t rnd c u entries Ht Hl]; cbn;
      try done.
    + intros Hst. destruct (IH Hst) as (_ & Hall & Hfetch & Hlog).
      split; [done |]. split; [| split; [| done]].
      * intros t Ht. destruct (decide (t = started s)) as [->|Hneq].
        -- rewrite lookup_insert_eq. by eexists.
        -- rewrite lookup_insert_ne; [| done]. apply Hall. lia.
      * intros t task. destruct (decide (t = started s)) as [->|Hneq].
        -- rewrite lookup_insert_eq. intros [= <-]. by eexists.
        -- rewrite lookup_insert_ne; [| done]. by apply Hfetch.
    + intros Hst. destruct (IH Hst) as (Hres & Hall & Hfetch & Hlog).
      do 3 (split; [done |]).
      constructor; [done | by apply Forall_take].
    + intros Hst. destruct (IH Hst) as (_ & _ & Hfetch & _).
      by destruct (Hfetch t _ Ht).
Qed.

(** X4.  While the status still reads "Checking...", no request has come
    back: no result is displayed, every invocation started so far is
    still waiting for its response, and the log is an array that holds
    entries of the background ticks only. *)
Theorem checking_means_nothing_settled (es : list Event) (s : State) :
  run initial es = Some s → backendStatus s = "Checking..." →
  result s = None ∧
  (∀ t, (t < started s)%nat → ∃ u, inflight s !! t = Some (AwaitFetch u)) ∧
  (∀ t task, inflight s !! t = Some task → ∃ u, task = AwaitFetch u) ∧
  ∃ entries, logs s = LogArray entries ∧
             Forall (λ e, level e = "INFO") entries.
Proof.
  intros Hrun Hst.
  destruct (checking_invariant es s Hrun Hst) as (Hres & Hall & Hfetch & Hlog).
  do 3 (split; [done |]).
  destruct (shaped_logs s (run_reaches_shaped es s Hrun)) as [entries Hl].
  exists entries. split; [done |]. by rewrite Hl in Hlog.
Qed.

Lemma checking_means_nothing_settled_witness :
  ∃ s, run initial [Tick (1 # 2) (1 # 2) {| now := 1; localeTime := "10:00:01" |};
                    Change "http://a.com"; KeyEnter]
       = Some s ∧
       backendStatus s = "Checking..." ∧ result s = None ∧
       ∃ entries, logs s = LogArray entries ∧
                  Forall (λ e, level e = "INFO") entries.
Proof.
  destruct (run initial [Tick (1 # 2) (1 # 2)
                           {| now := 1; localeTime := "10:00:01" |};
                         Change "http://a.com"; KeyEnter])
    as [s|] eqn:Hrun; [| by vm_compute in Hrun].
  assert (Hst : backendStatus s = "Checking...").
  { vm_compute in Hrun. by injection Hrun as <-. }
  exists s. split; [done |]. split; [exact Hst |].
  destruct (checking_means_nothing_settled _ s Hrun Hst)
    as (Hres & _ & _ & Hlog).
  split; [exact Hres | exact Hlog].
Defined.

(** ** The log *)

Lemma logOrigin_grows (s s' : State) (e : LogEvent) :
  (∀ u, u ∈ requests s → u ∈ requests s') → logOrigin s e → logOrigin s' e.
Proof.
  intros Hsub [rnd c He|u c Hu He|u c Hu He];
    [by eapply FromTick | eapply FromAnswer | eapply FromFallback]; eauto.
Qed.

Lemma logOrigin_reachable (es : list Event) (s : State) :
  run initial es = Some s → Forall (logOrigin s) (safePrev (logs s)).
Proof.
  revert es s. apply reachable_ind; [constructor |].
  intros es s e s' Hreach Hlog Heff.
  destruct (tracked_reachable es s Hreach) as (_ & _ & Htasks).
  assert (Hkeep : ∀ s1 : State, requests s1 = requests s →
            Forall (logOrigin s1) (safePrev (logs s))).
  { intros s1 Hreq. eapply Forall_impl; [exact Hlog |].
    intros e0. apply logOrigin_grows. intros u0. by rewrite Hreq. }
  destruct Heff as [e|v|e Hurl|flip rnd c|t r c u Ht Hr
                    |t data c u entries Ht Hl|t rnd c u entries Ht Hl].
  - done.
  - by apply Hkeep.
  - eapply Forall_impl; [exact Hlog |]. intros e0. apply logOrigin_grows.
    intros u0 Hu0. cbn. apply elem_of_app. by left.
  - change (safePrev (logs (tick flip rnd c s)))
      with (take 7 (tickLog rnd c :: safePrev (logs s))).
    apply Forall_take. constructor; [by eapply FromTick | by apply Hkeep].
  - by apply Hkeep.
  - pose proof (Hkeep _ (eq_refl : requests
        {| url := url s;
           result := Some {| prediction := data_prediction data;
                             confidence :=
                               JS.toFixed1
                                 (JS.double (data_confidence data * 100));
                             risk := data_risk_level data |};
           loading := false; backendStatus := "Online";
           stats := scanStats (data_prediction data) (stats s);
           logs := LogArray (successLog u c :: entries);
           inflight := delete t (inflight s);
           started := started s; requests := requests s |} = requests s)) as Hk.
    rewrite Hl in Hk. constructor; [| exact Hk].
    eapply FromAnswer; [| done]. cbn.
    eapply list_elem_of_lookup_2. exact (Htasks t _ Ht).
  - pose proof (Hkeep _ (eq_refl : requests
        {| url := url s; result := Some (mockRes (JS.units u) rnd);
           loading := false;
           backendStatus := backendStatus s; stats := stats s;
           logs := LogArray (simulatedLog u c :: entries);
           inflight := delete t (inflight s);
           started := started s; requests := requests s |} = requests s)) as Hk.
    rewrite Hl in Hk. constructor; [| exact Hk].
    eapply FromFallback; [| done]. cbn.
    eapply list_elem_of_lookup_2. exact (Htasks t _ Ht).
Qed.

(** X5.  In every state a session can reach, the log is an array and each
    of its rows is the entry of a tick, drawn with a blue border, or the
    "SUCCESS" entry of an answered scan, drawn green, or the "WARN" entry
    of a fallback, drawn yellow; and the url in the message of a scan
    entry is one that was posted. *)
Theorem log_rows_have_known_origin (es : list Event) (s : State) :
  run initial es = Some s →
  ∃ entries, logs s = LogArray entries ∧
  Forall (λ e,
    (∃ rnd c, e = tickLog rnd c ∧ logBorder e = "border-blue-500") ∨
    (∃ u c, u ∈ requests s ∧ e = successLog u c ∧
            logBorder e = "border-green-500") ∨
    (∃ u c, u ∈ requests s ∧ e = simulatedLog u c ∧
            logBorder e = "border-yellow-500"))
    entries.
Proof.
  intros Hrun.
  destruct (shaped_logs s (run_reaches_shaped es s Hrun)) as [entries Hl].
  exists entries. split; [done |].
  pose proof (logOrigin_reachable es s Hrun) as Hlog. rewrite Hl in Hlog.
  eapply Forall_impl; [exact Hlog |].
  intros e [rnd c ->|u c Hu ->|u c Hu ->].
  - left. by exists rnd, c.
  - right; left. by exists u, c.
  - right; right. by exists u, c.
Qed.

Lemma log_rows_have_known_origin_witness :
  ∃ s, run initial [Change "http://a.com"; KeyEnter;
                    Settle 0 NotOk {| now := 1; localeTime := "10:00:01" |};
                    Wake 0 (1 # 2) {| now := 2; localeTime := "10:00:02" |}]
       = Some s ∧
       ∃ entries, logs s = LogArray entries ∧
       Forall (λ e,
         (∃ rnd c, e = tickLog rnd c ∧ logBorder e = "border-blue-500") ∨
         (∃ u c, u ∈ requests s ∧ e = successLog u c ∧
                 logBorder e = "border-green-500") ∨
         (∃ u c, u ∈ requests s ∧ e = simulatedLog u c ∧
                 logBorder e = "border-yellow-500"))
         entries.
Proof.
  destruct (run initial [Change "http://a.com"; KeyEnter;
                         Settle 0 NotOk {| now := 1; localeTime := "10:00:01" |};
                         Wake 0 (1 # 2) {| now := 2; localeTime := "10:00:02" |}])
    as [s|] eqn:Hrun; [| by vm_compute in Hrun].
  exists s. split; [done |].
  exact (log_rows_have_known_origin _ s Hrun).
Defined.

Lemma step_log_length (s s' : State) (e : Event) :
  step s e = Some s' →
  (length (safePrev (logs s')) ≤
   match e with
   | Tick _ _ _ => 7
   | Settle _ (Answer _) _ | Wake _ _ _ => S (length (safePrev (logs s)))
   | _ => length (safePrev (logs s))
   end)%nat.
Proof.
  intros Hstep.
  assert (Hstart : length (safePrev (logs (analyzeUrl s)))
                   = length (safePrev (logs s)))
    by (unfold analyzeUrl; by destruct (_ =? _)%string).
  destruct e as [v| | |flip rnd c|t r c|t rnd c]; cbn in Hstep.
  - by injection Hstep as <-.
  - injection Hstep as <-. lia.
  - destruct (buttonDisabled s); injection Hstep as <-; lia.
  - injection Hstep as <-. unfold tick, tickLogs, JS.slice0; cbn [logs safePrev].
    rewrite length_take. lia.
  - destruct (inflight s !! t) as [[u|u]|].
    + destruct r as [| | |data]; [injection Hstep as <-; cbn; lia .. |].
      unfold onAnswer in Hstep. destruct (logs s); [done | done |].
      cbn in Hstep. injection Hstep as <-. cbn. lia.
    + injection Hstep as <-. destruct r; lia.
    + injection Hstep as <-. destruct r; lia.
  - destruct (inflight s !! t) as [[u|u]|]; [injection Hstep as <-; lia | | injection Hstep as <-; lia].
    unfold onDelay in Hstep. destruct (logs s); [done | done |].
    cbn in Hstep. injection Hstep as <-. cbn. lia.
Qed.

Lemma run_log_length (es : list Event) : ∀ (s s' : State) (acc : nat),
  run s es = Some s' →
  (length (safePrev (logs s)) ≤ 7 + acc)%nat →
  (length (safePrev (logs s')) ≤ 7 + pushedSinceTick acc es)%nat.
Proof.
  induction es as [|e es IH]; intros s s' acc Hrun Hlen; cbn in Hrun.
  - by injection Hrun as <-.
  - destruct (step s e) as [s1|] eqn:Hstep; [| done]. cbn in Hrun.
    pose proof (step_log_length s s1 e Hstep) as H1.
    destruct e as [v| | |flip rnd c|t [| | |data] c|t rnd c]; cbn [pushedSinceTick];
      apply (IH s1 s' _ Hrun); lia.
Qed.

(** X6.  The log is longer than 7 by at most the scans that have settled
    since the last tick: in every state a session can reach, the log is
    an array whose length is at most 7 plus the number of answers and
    fallback delays that the session has seen end after its last tick. *)
Theorem log_overshoot_is_bounded (es : list Event) (s : State) :
  run initial es = Some s →
  ∃ entries, logs s = LogArray entries ∧
             (length entries ≤ 7 + pushedSinceTick 0 es)%nat.
Proof.
  intros Hrun.
  destruct (shaped_logs s (run_reaches_shaped es s Hrun)) as [entries Hl].
  exists entries. split; [done |].
  pose proof (run_log_length es initial s 0 Hrun) as Hlen.
  rewrite Hl in Hlen. apply Hlen. cbn. lia.
Qed.

Lemma log_overshoot_is_bounded_witness :
  ∃ s, run initial (replicate 9 (Tick (1 # 2) (1 # 2) (clock 1)) ++
                    [Change "http://a.com"; KeyEnter;
                     Settle 0 (Answer benignAnswer) (clock 2)])
       = Some s ∧
       ∃ entries, logs s = LogArray entries ∧ (length entries ≤ 7 + 1)%nat.
Proof.
  destruct (run initial (replicate 9 (Tick (1 # 2) (1 # 2) (clock 1)) ++
                         [Change "http://a.com"; KeyEnter;
                          Settle 0 (Answer benignAnswer) (clock 2)]))
    as [s|] eqn:Hrun; [| by vm_compute in Hrun].
  exists s. split; [done |].
  exact (log_overshoot_is_bounded _ s Hrun).
Defined.

Lemma take_app_take {A} (n : nat) (a b : list A) :
  take n (a ++ take n b) = take n (a ++ b).
Proof.
  rewrite !take_app, take_take. do 2 f_equal. lia.
Qed.

Lemma run_ticks (ts : list (Q * Q * Clock)) : ∀ s : State,
  ∃ s', run s (tickEvents ts) = Some s' ∧
        logs s' = match ts with
                  | [] => logs s
                  | _ :: _ =>
                      LogArray (take 7 (reverse (tickEntries ts) ++
                                        safePrev (logs s)))
                  end ∧
        requests s' = requests s ∧ inflight s' = inflight s ∧
        backendStatus s' = backendStatus s ∧ result s' = result s ∧
        loading s' = loading s ∧ url s' = url s.
Proof.
  induction ts as [|[[flip rnd] c] ts IH]; intros s; [by exists s |].
  cbn [tickEvents fmap list_fmap run step mbind option_bind].
  destruct (IH (tick flip rnd c s)) as (s' & Hrun & Hlogs & Hrest).
  exists s'. split; [exact Hrun |]. split; [| exact Hrest].
  rewrite Hlogs.
  change (tickEntries ((flip, rnd, c) :: ts))
    with (tickLog rnd c :: tickEntries ts).
  rewrite reverse_cons, <- (assoc_L (++)).
  change (safePrev (logs (tick flip rnd c s)))
    with (take 7 (tickLog rnd c :: safePrev (logs s))).
  destruct ts as [|t ts]; [done |].
  by rewrite take_app_take.
Qed.

(** X7.  Ticks compose as one push of their entries: from any state,
    whatever its log cell holds, a run of one or more ticks leaves the
    log holding the first 7 of the new entries, newest first, followed by
    the old ones (none where the cell held no array); after 7 ticks or
    more nothing of the old log is left.
    The run sends no request and leaves the status, the result, the
    loading flag and the url alone. *)
Theorem ticks_compose_as_one_push (ts : list (Q * Q * Clock)) (s : State) :
  ts ≠ [] →
  ∃ s', run s (tickEvents ts) = Some s' ∧
        logs s' = LogArray (take 7 (reverse (tickEntries ts) ++
                                    match logs s with
                                    | LogArray entries => entries
                                    | Absent | NonSequence => []
                                    end)) ∧
        ((7 ≤ length ts)%nat →
         logs s' = LogArray (take 7 (reverse (tickEntries ts)))) ∧
        requests s' = requests s ∧ inflight s' = inflight s ∧
        backendStatus s' = backendStatus s ∧ result s' = result s ∧
        loading s' = loading s ∧ url s' = url s.
Proof.
  intros Hne. destruct (run_ticks ts s) as (s' & Hrun & Hlogs & Hrest).
  exists s'. split; [done |].
  destruct ts as [|t ts]; [done |].
  split; [by rewrite Hlogs; destruct (logs s) |]. split; [| done].
  intros Hlen. rewrite Hlogs. f_equal. apply take_app_le.
  rewrite length_reverse. unfold tickEntries. by rewrite length_fmap.
Qed.

Lemma ticks_compose_as_one_push_witness :
  [((1 # 2)%Q, (1 # 4)%Q, clock 1); ((9 # 10)%Q, (3 # 4)%Q, clock 2)] ≠ [] ∧
  ∃ s', run initial (tickEvents [((1 # 2)%Q, (1 # 4)%Q, clock 1);
                                 ((9 # 10)%Q, (3 # 4)%Q, clock 2)]) = Some s' ∧
        logs s' = LogArray [tickLog (3 # 4) (clock 2); tickLog (1 # 4) (clock 1)].
Proof.
  split; [done |].
  destruct (ticks_compose_as_one_push
              [((1 # 2)%Q, (1 # 4)%Q, clock 1); ((9 # 10)%Q, (3 # 4)%Q, clock 2)]
              initial) as (s' & Hrun & Hlogs & _); [done |].
  exists s'. split; [exact Hrun | exact Hlogs].
Defined.

(** ** The two updaters of [stats] together *)

Lemma callbacks_commute (isPhishing : bool) (pred : string) (index : nat)
    (item : Entry) :
  returned (tickCallback isPhishing index
              (returned (scanCallback pred item) item))
           (returned (scanCallback pred item) item)
  = returned (scanCallback pred
                (returned (tickCallback isPhishing index item) item))
             (returned (tickCallback isPhishing index item) item).
Proof.
  unfold tickCallback, scanCallback.
  destruct (isPhishing && (index =? 1)%nat), (negb isPhishing && (index =? 0)%nat),
    ((pred =? "phishing")%string && (name item =? "Phishing")%string) eqn:H1,
    ((pred =? "benign")%string && (name item =? "Benign")%string) eqn:H2;
    cbn; rewrite ?H1, ?H2; done.
Qed.

Lemma updaters_commute (isPhishing : bool) (pred : string) (st : list Entry) :
  tickStats isPhishing (scanStats pred st)
  = scanStats pred (tickStats isPhishing st).
Proof.
  unfold tickStats, scanStats.
  change (map ?f ?l) with (f <$> l).
  rewrite imap_fmap, fmap_imap. apply imap_ext.
  intros i x _. cbn. apply callbacks_commute.
Qed.

(** X8.  In every state a session can reach, the updater of the tick,
    which picks its row by position, and the updater of an answered scan,
    which picks it by name, do the same merge: a phishing tick changes
    [stats] as an answer "phishing" does, a benign tick as an answer
    "benign". *)
Theorem index_and_name_updaters_agree
    (es : list Event) (s : State) (isPhishing : bool) :
  run initial es = Some s →
  tickStats isPhishing (stats s)
  = scanStats (if isPhishing then "phishing" else "benign") (stats s).
Proof.
  intros Hrun. destruct (run_reaches_shaped es s Hrun) as [(b & p & -> & _) _].
  by destruct isPhishing.
Qed.

Lemma index_and_name_updaters_agree_witness :
  ∃ s, run initial [Tick (3 # 4) (1 # 2) (clock 1)] = Some s ∧
       tickStats true (stats s) = scanStats "phishing" (stats s) ∧
       scanStats "phishing" (stats s)
       = [ {| name := "Benign"; value := 400 |};
           {| name := "Phishing"; value := 302 |} ].
Proof.
  eexists. split; [vm_compute; reflexivity |].
  split; [| by vm_compute].
  apply (index_and_name_updaters_agree [Tick (3 # 4) (1 # 2) (clock 1)] _ true).
  vm_compute; reflexivity.
Defined.

(** X9.  A tick and an answered scan merge in either order to the same
    counts: whichever of the two handlers runs first, [stats] ends the
    same. *)
Theorem tick_and_answer_commute_on_stats
    (s s1 s2 : State) (t : nat) (data : Payload) (c c' : Clock)
    (flip rnd : Q) :
  run s [Tick flip rnd c'; Settle t (Answer data) c] = Some s1 →
  run s [Settle t (Answer data) c; Tick flip rnd c'] = Some s2 →
  stats s1 = stats s2.
Proof.
  cbn. destruct (inflight s !! t) as [[u|u]|]; cbn;
    try (by intros [= <-] [= <-]).
  unfold onAnswer; cbn. destruct (logs s); cbn; [done | done |].
  intros [= <-] [= <-]. cbn. symmetry. apply updaters_commute.
Qed.

Lemma tick_and_answer_commute_on_stats_witness :
  ∃ s1 s2,
    run (analyzeUrl (setUrl "http://a.com" initial))
        [Tick (3 # 4) (1 # 2) (clock 1);
         Settle 0 (Answer benignAnswer) (clock 2)] = Some s1 ∧
    run (analyzeUrl (setUrl "http://a.com" initial))
        [Settle 0 (Answer benignAnswer) (clock 2);
         Tick (3 # 4) (1 # 2) (clock 1)] = Some s2 ∧
    stats s1 = stats s2.
Proof.
  destruct (run (analyzeUrl (setUrl "http://a.com" initial))
                [Tick (3 # 4) (1 # 2) (clock 1);
                 Settle 0 (Answer benignAnswer) (clock 2)])
    as [s1|] eqn:H1; [| by vm_compute in H1].
  destruct (run (analyzeUrl (setUrl "http://a.com" initial))
                [Settle 0 (Answer benignAnswer) (clock 2);
                 Tick (3 # 4) (1 # 2) (clock 1)])
    as [s2|] eqn:H2; [| by vm_compute in H2].
  exists s1, s2. do 2 (split; [done |]).
  exact (tick_and_answer_commute_on_stats _ s1 s2 _ _ _ _ _ _ H1 H2).
Defined.

(** ** What a scan reports *)





(** ** The fallback evaluator, again *)

Lemma contains_trans (u v w : list N) :
  contains v u → contains u w → contains v w.
Proof.
  intros (a & b & ->) (c & d & ->). exists (a ++ c), (d ++ b).
  by rewrite <- !(assoc_L (++)).
Qed.

(** X12.  The fallback verdict is kept when the url grows: a url that
    contains a url judged phishing is judged phishing itself. *)
Theorem url_containing_a_flagged_url_is_flagged (u v : list N) :
  contains v u → isPhish u = true → isPhish v = true.
Proof.
  intros Hvu. rewrite !isPhish_policy.
  intros [Hb | [Hs | Hlen]].
  - left. by apply (contains_trans u).
  - right; left. by apply (contains_trans u).
  - right; right. destruct Hvu as (a & b & ->).
    rewrite !length_app. lia.
Qed.

Lemma url_containing_a_flagged_url_is_flagged_witness :
  contains (JS.units "http://x.example/?next=my-bank.example")
           (JS.units "my-bank.example") ∧
  isPhish (JS.units "my-bank.example") = true ∧
  isPhish (JS.units "http://x.example/?next=my-bank.example") = true.
Proof.
  assert (Hc : contains (JS.units "http://x.example/?next=my-bank.example")
                        (JS.units "my-bank.example"))
    by (by exists (JS.units "http://x.example/?next="), []).
  assert (Hp : isPhish (JS.units "my-bank.example") = true) by done.
  do 2 (split; [done |]).
  exact (url_containing_a_flagged_url_is_flagged _ _ Hc Hp).
Defined.

(** ** The store, again *)

Lemma mapStore_shares (prev : list Ref) :
  ∀ (callback : nat → Entry → Returned) (h : Store) (entries : list Entry),
    snapshot h prev = Some <$> entries →
    ∃ arr ext,
      mapStore callback prev h = Some (arr, h ++ ext) ∧
      length arr = length prev ∧
      ∀ i r item, prev !! i = Some r → h !! r = Some item →
                  callback i item = Same → arr !! i = Some r.
Proof.
  induction prev as [|r rest IH]; intros callback h [|e entries] H; try done.
  - exists [], []. by rewrite app_nil_r.
  - cbn in H. injection H as Hr Hrest. cbn [mapStore]. rewrite Hr. cbn.
    destruct (callback 0%nat e) as [obj|] eqn:Hcb.
    + destruct (IH (callback ∘ S) (h ++ [obj]) entries
                   (snapshot_grow _ _ _ _ Hrest)) as (arr & ext & -> & Hlen & Hsame).
      exists (length h :: arr), ([obj] ++ ext). cbn.
      rewrite <- (assoc_L (++)). split; [done |]. split; [by rewrite Hlen |].
      intros [|i] r' item Hi Hitem Hcb'; cbn in Hi.
      * injection Hi as <-. congruence.
      * apply (Hsame i r' item Hi); [by apply lookup_app_l_Some | done].
    + destruct (IH (callback ∘ S) h entries Hrest) as (arr & ext & -> & Hlen & Hsame).
      exists (r :: arr), ext. cbn. split; [done |]. split; [by rewrite Hlen |].
      intros [|i] r' item Hi Hitem Hcb'; cbn in Hi.
      * by injection Hi as <-.
      * by apply (Hsame i r' item Hi).
Qed.

(** X13.  An update of [stats] by [map] shares what it does not change:
    the new array is as long as the old one, a row the callback returns as
    it is keeps its reference, so that it is the same object in both
    arrays, and no object that existed before is written, so every object
    reads as it did. *)
Theorem map_shares_unchanged_rows
    (callback : nat → Entry → Returned) (h : Store) (prev : list Ref)
    (entries : list Entry) :
  snapshot h prev = Some <$> entries →
  ∃ arr h',
    mapStore callback prev h = Some (arr, h') ∧
    length arr = length prev ∧
    (∀ i r item, prev !! i = Some r → h !! r = Some item →
                 callback i item = Same → arr !! i = Some r) ∧
    (∀ r item, h !! r = Some item → h' !! r = Some item).
Proof.
  intros Hprev.
  destruct (mapStore_shares prev callback h entries Hprev)
    as (arr & ext & Hmap & Hlen & Hsame).
  exists arr, (h ++ ext). do 3 (split; [done |]).
  intros r item Hr. by apply lookup_app_l_Some.
Qed.

Lemma map_shares_unchanged_rows_witness :
  snapshot seededStore [0; 1]%nat = Some <$> seededStore ∧
  ∃ arr h',
    mapStore (λ _, scanCallback "phishing") [0; 1]%nat seededStore
    = Some (arr, h') ∧
    arr !! 0%nat = Some 0%nat ∧ arr !! 1%nat = Some 2%nat ∧
    h' !! 1%nat = Some {| name := "Phishing"; value := 300 |}.
Proof.
  split; [done |].
  destruct (map_shares_unchanged_rows (λ _, scanCallback "phishing")
              seededStore [0; 1]%nat seededStore eq_refl)
    as (arr & h' & Hmap & _ & Hsame & Hkeep).
  exists arr, h'. split; [exact Hmap |].
  split; [by apply (Hsame 0%nat 0%nat {| name := "Benign"; value := 400 |}) |].
  split; [| by apply Hkeep].
  vm_compute in Hmap. by injection Hmap as <- <-.
Defined.

(** X14.  The updater of the earlier variant writes through every
    alias: it returns an array of the very references it was given, and
    the object behind the chosen one has its count raised in the store
    itself, so any array that holds that reference, taken at any time,
    reads the raised count; the other objects are left as they were. *)
Theorem legacy_update_writes_through_aliases
    (isPhish : bool) (h : Store) (prev old : list Ref) (r : Ref)
    (item : Entry) :
  prev !! (if isPhish then 1%nat else 0%nat) = Some r →
  h !! r = Some item → r ∈ old →
  ∃ h',
    Legacy.setStats isPhish prev h = Some (prev, h') ∧
    h' !! r = Some (bump item) ∧
    (∀ r', r' ≠ r → h' !! r' = h !! r') ∧
    snapshot h' old ≠ snapshot h old.
Proof.
  intros Hprev Hitem Hold.
  exists (<[r := bump item]> h).
  assert (Hlt : (r < length h)%nat) by by apply lookup_lt_Some in Hitem.
  split.
  { unfold Legacy.setStats, Store, Ref in *; cbv zeta.
    rewrite Hprev; cbn. by rewrite Hitem. }
  split; [by apply list_lookup_insert_eq |].
  split; [intros r' Hne; by apply list_lookup_insert_ne |].
  apply list_elem_of_lookup in Hold as [i Hi].
  assert (H1 : snapshot (<[r := bump item]> h) old !! i
               = Some (Some (bump item))).
  { unfold snapshot. rewrite list_lookup_fmap, Hi. cbn. f_equal.
    by apply list_lookup_insert_eq. }
  assert (H2 : snapshot h old !! i = Some (Some item)).
  { unfold snapshot. rewrite list_lookup_fmap, Hi. cbn. by f_equal. }
  intros Heq. rewrite Heq, H2 in H1. injection H1 as H1.
  apply (f_equal value) in H1. cbn in H1. lia.
Qed.

Lemma legacy_update_writes_through_aliases_witness :
  ∃ h',
    Legacy.setStats false [0; 1]%nat seededStore = Some ([0; 1]%nat, h') ∧
    h' !! 0%nat = Some {| name := "Benign"; value := 401 |} ∧
    snapshot h' [1; 0]%nat ≠ snapshot seededStore [1; 0]%nat.
Proof.
  destruct (legacy_update_writes_through_aliases false seededStore
              [0; 1]%nat [1; 0]%nat 0%nat {| name := "Benign"; value := 400 |}
              eq_refl eq_refl) as (h' & Hset & Hr & _ & Hsnap).
  { apply list_elem_of_lookup. by exists 1%nat. }
  by exists h'.
Defined.

(** ** The verdict of the earlier variant *)

Lemma hundredths_mono (x y : Q) :
  (x <= y)%Q → JS.hundredths x ≤ JS.hundredths y.
Proof. intros H. apply Qfloor_resp_le. lra. Qed.

Lemma legacy_isPhish_policy (u : list N) :
  Legacy.isPhish u = true ↔
  contains u (JS.units "bank") ∨ (30 < length u)%nat.
Proof.
  unfold Legacy.isPhish.
  rewrite orb_true_iff, includes_contains, Z.ltb_lt.
  split; (intros [H|H]; [by left | right; lia]).
Qed.

(** X15.  The earlier variant judges a url "Phishing" exactly when it
    contains "bank" or is longer than 30 code units, and "Benign"
    otherwise, with risk "CRITICAL" for the first and "LOW" for the
    second; for a draw in [0, 1) its confidence, computed in doubles, is a
    number of hundredths between 0.70 and 0.99, written with two
    decimals. *)
Theorem legacy_verdict_policy (u : list N) (rnd : Q) :
  (0 <= rnd)%Q → (rnd < 1)%Q →
  (prediction (Legacy.mockRes u rnd) = "Phishing" ↔
     contains u (JS.units "bank") ∨ (30 < length u)%nat) ∧
  (prediction (Legacy.mockRes u rnd) = "Benign" ↔
     ¬ (contains u (JS.units "bank") ∨ (30 < length u)%nat)) ∧
  (risk (Legacy.mockRes u rnd) = "CRITICAL" ↔
     prediction (Legacy.mockRes u rnd) = "Phishing") ∧
  (risk (Legacy.mockRes u rnd) = "LOW" ↔
     prediction (Legacy.mockRes u rnd) ≠ "Phishing") ∧
  ∃ n : Z, 70 ≤ n ≤ 99 ∧
           confidence (Legacy.mockRes u rnd) = JS.render_hundredths n.
Proof.
  intros H0 H1. unfold Legacy.mockRes; cbn [prediction risk confidence].
  rewrite <- legacy_isPhish_policy.
  repeat split; try (destruct (Legacy.isPhish u); done).
  eexists. split; [| reflexivity].
  assert (Hlit : (0 <= JS.double (29 # 100))%Q) by (by vm_compute).
  assert (Hlit7 : (0 <= JS.double (7 # 10))%Q) by (by vm_compute).
  assert (Hp0 : (0 <= JS.double (rnd * JS.double (29 # 100)))%Q).
  { apply double_nonneg. by apply Qmult_le_0_compat. }
  assert (Hp1 : (JS.double (rnd * JS.double (29 # 100))
                 <= JS.double (1 * JS.double (29 # 100)))%Q).
  { apply double_mono; [by apply Qmult_le_0_compat |].
    apply Qmult_le_compat_r; [by apply Qlt_le_weak | done]. }
  split.
  - change 70 with
      (JS.hundredths (JS.double (JS.double (7 # 10) + 0))).
    apply hundredths_mono. apply double_mono; lra.
  - change 99 with
      (JS.hundredths
         (JS.double (JS.double (7 # 10) + JS.double (1 * JS.double (29 # 100))))).
    apply hundredths_mono. apply double_mono; lra.
Qed.

Lemma legacy_verdict_policy_witness :
  (0 <= 1 # 2)%Q ∧ (1 # 2 < 1)%Q ∧
  prediction (Legacy.mockRes (JS.units "http://example.com/a/long/path/x") (1 # 2))
  = "Phishing" ∧
  confidence (Legacy.mockRes (JS.units "http://example.com/a/long/path/x") (1 # 2))
  = "0.84".
Proof.
  assert (Ha : (0 <= 1 # 2)%Q) by (by compute).
  assert (Hb : (1 # 2 < 1)%Q) by (by compute).
  destruct (legacy_verdict_policy (JS.units "http://example.com/a/long/path/x")
              (1 # 2) Ha Hb) as (Hp & _ & _ & _ & n & _ & Hc).
  do 2 (split; [done |]).
  split; [apply Hp; right; vm_compute; lia | by vm_compute].
Defined.

(** X16.  What the fallback of the current component judges phishing,
    the earlier variant judged phishing too, unless the url is flagged
    for containing "secure". *)
Theorem fallback_flags_less_than_legacy (u : list N) :
  isPhish u = true →
  Legacy.isPhish u = true ∨ contains u (JS.units "secure").
Proof.
  rewrite isPhish_policy, legacy_isPhish_policy.
  intros [H | [H | H]]; [left; by left | by right | left; right; lia].
Qed.

Lemma fallback_flags_less_than_legacy_witness :
  isPhish (JS.units "http://secure.example") = true ∧
  Legacy.isPhish (JS.units "http://secure.example") = false ∧
  contains (JS.units "http://secure.example") (JS.units "secure").
Proof.
  assert (Hp : isPhish (JS.units "http://secure.example") = true) by done.
  split; [done |]. split; [done |].
  destruct (fallback_flags_less_than_legacy _ Hp) as [Hl | Hc];
    [discriminate Hl | exact Hc].
Defined.

(** X17.  The interval of the earlier variant pushes an entry whose
    batch number lies between 0 and 999 and whose level is "WARN" when
    its second draw exceeds the double written 0.9 and "INFO" otherwise;
    on an array the push keeps the first 5 entries, the new one in front;
    on a value that is not an array it throws, having no guard. *)
Theorem legacy_interval_push
    (rnd flip : Q) (c : Clock) (entries : list LogEvent) :
  isDraw rnd →
  0 ≤ Legacy.batchNumber rnd ≤ 999 ∧
  (level (Legacy.tickLog rnd flip c) = "WARN" ↔ (JS.double (9 # 10) < flip)%Q) ∧
  (level (Legacy.tickLog rnd flip c) = "INFO" ↔ (flip <= JS.double (9 # 10))%Q) ∧
  Legacy.tickLogs (Legacy.tickLog rnd flip c) (LogArray entries)
  = Some (LogArray (take 5 (Legacy.tickLog rnd flip c :: entries))) ∧
  Legacy.tickLogs (Legacy.tickLog rnd flip c) Absent = None ∧
  Legacy.tickLogs (Legacy.tickLog rnd flip c) NonSequence = None.
Proof.
  intros Hdraw. pose proof (draw_below_one rnd Hdraw) as Hmax.
  destruct Hdraw as (H0 & H1 & _).
  split; [| split; [| split; [| done]]].
  - unfold Legacy.batchNumber, JS.floor.
    assert (Hlo : 0 ≤ Qfloor (JS.double (rnd * 1000))).
    { rewrite <- (Qfloor_Z 0). apply Qfloor_resp_le. apply double_nonneg. lra. }
    assert (Hhi : Qfloor (JS.double (rnd * 1000)) < 1000).
    { rewrite Zlt_Qlt.
      apply Qle_lt_trans with (JS.double (rnd * 1000)); [apply Qfloor_le |].
      apply Qle_lt_trans
        with (JS.double ((9007199254740991 # 9007199254740992) * 1000));
        [apply double_mono; lra | by vm_compute]. }
    lia.
  - cbn [level Legacy.tickLog].
    destruct (Qle_bool flip (JS.double (9 # 10))) eqn:Hb; cbn.
    + apply Qle_bool_iff in Hb. split; [done | intros Hlt; exfalso; lra].
    + split; [intros _ | done]. apply Qnot_le_lt. intros Hle.
      apply Qle_bool_iff in Hle. congruence.
  - cbn [level Legacy.tickLog].
    destruct (Qle_bool flip (JS.double (9 # 10))) eqn:Hb; cbn.
    + apply Qle_bool_iff in Hb. by split.
    + split; [done | intros Hle]. apply Qle_bool_iff in Hle. congruence.
Qed.

Lemma legacy_interval_push_witness :
  isDraw (3 # 4) ∧
  Legacy.batchNumber (3 # 4) = 750 ∧
  level (Legacy.tickLog (3 # 4) (15 # 16) (clock 1)) = "WARN".
Proof.
  assert (Hd : isDraw (3 # 4)) by (repeat split; by vm_compute).
  split; [done |].
  destruct (legacy_interval_push (3 # 4) (15 # 16) (clock 1) [] Hd)
    as (_ & Hwarn & _).
  split; [by vm_compute | apply Hwarn; by vm_compute].
Defined.
